(** * Particle-filter localisation ([scripts/pf.py]): a shallow embedding

    The node's numeric code is embedded over the real numbers: Python
    floats and numpy [float64] values are idealised as [R], so rounding
    error, NaN and infinities are outside the model.  Python exceptions are
    explicit results, the two random sources are threaded as an explicit
    generator state, and the helpers imported from [helper_functions]
    (whose source is not part of [pf.py]) are fields of an environment
    record. *)

From Stdlib Require Import Reals Lra Lia ZArith List Bool Arith.
Import ListNotations.
Open Scope R_scope.

(** ** Exceptions and fallible computations *)

Inductive exn : Set := ValueError | IndexError | ZeroDivisionError.

Inductive result (A : Type) : Type :=
| Ok (a : A)
| Raise (e : exn).
Arguments Ok {A} a.
Arguments Raise {A} e.

Definition bind {A B : Type} (m : result A) (k : A -> result B) : result B :=
  match m with
  | Ok a => k a
  | Raise e => Raise e
  end.

Notation "v <- m ;; k" := (bind m (fun v => k))
  (at level 61, m at next level, right associativity).

(** A list comprehension whose body may raise: the first exception wins. *)
Fixpoint map_result {A B : Type} (f : A -> result B) (l : list A)
  : result (list B) :=
  match l with
  | [] => Ok []
  | a :: l' => b <- f a ;; bs <- map_result f l' ;; Ok (b :: bs)
  end.

(** A [for] loop over [l] threading an accumulator that may raise. *)
Fixpoint fold_result {A S : Type} (f : S -> A -> result S) (l : list A) (s : S)
  : result S :=
  match l with
  | [] => Ok s
  | a :: l' => s' <- f s a ;; fold_result f l' s'
  end.

(** ** Data model *)

(** [class Particle(namedtuple('Particle', ['x', 'y', 'theta', 'weight']))] *)
Record Particle : Type := mkParticle
  { x : R; y : R; theta : R; weight : R }.

(** [class PoseTuple(namedtuple('PoseTuple', ['x', 'y', 'theta']))]; the
    fields are prefixed because [Particle] already owns the plain names. *)
Record PoseTuple : Type := mkPoseTuple
  { pose_x : R; pose_y : R; pose_theta : R }.

(** ** Python and numpy primitives *)

(** Builtin [sum]: a left fold starting from 0 (also [np.sum] over [R]). *)
Definition sum (l : list R) : R := fold_left Rplus l 0.

(** [a / b] on Python numbers: a zero divisor raises.  On numpy [float64]
    operands the same division gives NaN with a warning and no exception;
    NaN is outside the model, which follows Python numbers. *)
Definition py_div (a b : R) : result R :=
  if Req_dec_T b 0 then Raise ZeroDivisionError else Ok (a / b).

(** [np.arctan2(y, x)], with values in (-PI, PI]. *)
Definition arctan2 (y0 x0 : R) : R :=
  if Rlt_dec 0 x0 then atan (y0 / x0)
  else if Rlt_dec x0 0 then
         if Rle_dec 0 y0 then atan (y0 / x0) + PI else atan (y0 / x0) - PI
  else if Rlt_dec 0 y0 then PI / 2
  else if Rlt_dec y0 0 then - (PI / 2)
  else 0.

(** [np.rad2deg] *)
Definition rad2deg (r : R) : R := r * (180 / PI).

(** Greatest integer below or equal to [r]. *)
Definition floor (r : R) : Z := (up r - 1)%Z.

(** [ndarray.round()] followed by [int(...)]: nearest integer, a tie going
    to the even neighbour. *)
Definition np_round (r : R) : Z :=
  let f := floor r in
  let d := r - IZR f in
  if Rlt_dec d (1 / 2) then f
  else if Rlt_dec (1 / 2) d then (f + 1)%Z
  else if Z.even f then f else (f + 1)%Z.

(** Position addressed by integer index [i] in an array of [n] entries:
    numpy counts a negative index from the end, anything else out of range
    raises [IndexError]. *)
Definition np_index (n : nat) (i : Z) : result nat :=
  if ((0 <=? i) && (i <? Z.of_nat n))%Z then Ok (Z.to_nat i)
  else if ((- Z.of_nat n <=? i) && (i <? 0))%Z then Ok (Z.to_nat (i + Z.of_nat n))
  else Raise IndexError.

(** In-place store [a[i] = v] at an in-range position. *)
Fixpoint list_set {A : Type} (i : nat) (v : A) (l : list A) : list A :=
  match l, i with
  | [], _ => []
  | _ :: l', O => v :: l'
  | a :: l', S i' => a :: list_set i' v l'
  end.

(** Elementwise [np.abs(a - e)] under numpy broadcasting of two
    one-dimensional arrays: equal lengths pair up, a length-1 array is
    stretched, any other pair of shapes raises [ValueError]. *)
Fixpoint abs_diff_zip (a e : list R) : list R :=
  match a, e with
  | a0 :: a', e0 :: e' => Rabs (a0 - e0) :: abs_diff_zip a' e'
  | _, _ => []
  end.

Definition np_abs_diff (a e : list R) : result (list R) :=
  if Nat.eqb (length a) (length e) then Ok (abs_diff_zip a e)
  else match a, e with
       | [a0], _ => Ok (map (fun e0 => Rabs (a0 - e0)) e)
       | _, [e0] => Ok (map (fun a0 => Rabs (a0 - e0)) a)
       | _, _ => Raise ValueError
       end.

Definition Rpos_b (r : R) : bool := if Rlt_dec 0 r then true else false.

(** ** normalize_weights (pf.py, lines 431-436) *)

Definition normalize_weights (particles : list Particle)
  : result (list Particle) :=
  let total := sum (map weight particles) in
  map_result
    (fun p => w <- py_div (weight p) total ;;
              Ok (mkParticle (x p) (y p) (theta p) w))
    particles.

(** ** calculate_sensor_weight (pf.py, lines 217-304)

    The plotting branches ([save=True]) have no effect on the returned
    weight and are left out. *)

(** Lines 236-250 for one row of [map_obstacles]: shift the obstacle to the
    particle, convert to polar, add the particle's heading to the bearing,
    renormalise with [arctan2(sin, cos)], convert to degrees and round.
    The result is the pair the loop of line 260 receives from
    [zip(phi, rho)]. *)
Definition obstacle_polar (particle : Particle) (ob : R * R) : Z * R :=
  let dx := fst ob - x particle in
  let dy := snd ob - y particle in
  let rho := sqrt (dx ^ 2 + dy ^ 2) in
  let phi_rad := arctan2 dy dx + theta particle in
  let phi := np_round (rad2deg (arctan2 (sin phi_rad) (cos phi_rad))) in
  (phi, rho).

(** One iteration of the loop of lines 260-274.  [None] stands for the NaN
    that marks a bucket not written yet. *)
Definition expected_step (expected_lidar : list (option R)) (pr : Z * R)
  : result (list (option R)) :=
  let '(phi, rho) := pr in
  idx <- np_index (length expected_lidar) phi ;;
  let rho := if Rlt_dec 3 rho then 0 else rho in
  match nth idx expected_lidar None with
  | None => Ok (list_set idx (Some rho) expected_lidar)
  | Some cur =>
      if Rlt_dec rho cur then Ok (list_set idx (Some rho) expected_lidar)
      else Ok expected_lidar
  end.

(** Line 276: [expected_lidar[np.isnan(expected_lidar)] = 0.0]. *)
Definition nan_to_zero (o : option R) : R :=
  match o with
  | Some r => r
  | None => 0
  end.

(** Lines 236-276: the scan the particle would expect from the map. *)
Definition expected_lidar_of (map_obstacles : list (R * R))
    (particle : Particle) : result (list R) :=
  e <- fold_result expected_step
         (map (obstacle_polar particle) map_obstacles) (repeat None 360) ;;
  Ok (map nan_to_zero e).

(** Lines 286-293: comparison with the scan.  [mask] is computed, as in the
    source, and not used afterwards. *)
Definition compare_lidar (actual_lidar expected_lidar : list R) : result R :=
  let mask := map Rpos_b actual_lidar in
  diff_lidar <- np_abs_diff actual_lidar expected_lidar ;;
  Ok (sum (map (fun d => (1 / d) ^ 3) (filter Rpos_b diff_lidar))).

(** [last_lidar] is the [ranges] field of the latest scan, if any. *)
Definition calculate_sensor_weight (map_obstacles : list (R * R))
    (last_lidar : option (list R)) (particle : Particle) : result R :=
  match last_lidar with
  | None => Ok 1
  | Some ranges =>
      let actual_lidar := removelast ranges in
      expected_lidar <- expected_lidar_of map_obstacles particle ;;
      compare_lidar actual_lidar expected_lidar
  end.

(** ** The node: helpers, state and the state-and-exception monad *)

(** What [pf.py] imports and does not define: the two random sources
    (Python's [random] module and the samplers of [helper_functions]) drawn
    from one generator state, and [TFHelper.angle_diff]. *)
Record Helpers : Type := mkHelpers
  { rng : Type;
    random : rng -> R * rng;
    sample_normal : R -> R -> R -> R * R -> rng -> R * rng;
    sample_normal_error : R -> R -> rng -> R * rng;
    angle_diff : R -> R -> R }.

(** The attributes of [ParticleFilter] that the update cycle reads or
    writes.  Stamps are integer clock readings.  [robot_pose] records the
    pose last handed to [fix_map_to_odom_transform]. *)
Record Node (H : Helpers) : Type := mkNode
  { particles : option (list Particle);
    robot_pose : option PoseTuple;
    last_pose : option PoseTuple;
    last_lidar : option (list R);
    map_obstacles : list (R * R);
    is_updating : bool;
    last_update : Z;
    last_update_real : Z;
    update_count : nat;
    gen : rng H }.
Arguments mkNode {H}.
Arguments particles {H}.
Arguments robot_pose {H}.
Arguments last_pose {H}.
Arguments last_lidar {H}.
Arguments map_obstacles {H}.
Arguments is_updating {H}.
Arguments last_update {H}.
Arguments last_update_real {H}.
Arguments update_count {H}.
Arguments gen {H}.

(** An odometry message: header stamp, pose already converted by
    [convert_pose_to_xy_and_theta], and the reading [rospy.Time.now()]
    returns if the cycle runs to line 210. *)
Record Odometry : Type := mkOdometry
  { odom_stamp : Z; odom_pose : PoseTuple; odom_now : Z }.

(** How a call of [update] ended. *)
Inductive outcome : Type :=
| Dropped                       (* line 151: busy, or a stale stamp *)
| Recorded                      (* line 174: pose stored, no cycle *)
| Skipped                       (* line 185: below the motion threshold *)
| Processed (delta : PoseTuple) (* the cycle ran to line 210 *)
| Failed (e : exn)              (* an exception in lines 193-204 *)
| Aborted (e : exn).            (* an exception in lines 208-210 *)

Definition INITIAL_STATE_XY_SIGMA : R := 25 / 100.
Definition INITIAL_STATE_XY_NOISE : R := 1 / 100.
Definition INITIAL_STATE_THETA_SIGMA : R := 15 / 100 * PI.
Definition INITIAL_STATE_THETA_NOISE : R := 0.
Definition NUM_PARTICLES : nat := 300.

(** [itertools.accumulate]: running totals. *)
Fixpoint accumulate_from (acc : R) (l : list R) : list R :=
  match l with
  | [] => []
  | w :: l' => (acc + w) :: accumulate_from (acc + w) l'
  end.

Definition accumulate (l : list R) : list R := accumulate_from 0 l.

(** [bisect.bisect_right(a, v, lo, hi)]: the binary search, with the number
    of iterations bounded by the width of the window. *)
Fixpoint bisect_loop (fuel : nat) (a : list R) (v : R) (lo hi : nat) : nat :=
  match fuel with
  | O => lo
  | S fuel' =>
      if Nat.ltb lo hi then
        let mid := Nat.div (lo + hi) 2 in
        if Rlt_dec v (nth mid a 0) then bisect_loop fuel' a v lo mid
        else bisect_loop fuel' a v (S mid) hi
      else lo
  end.

Definition bisect (a : list R) (v : R) (lo hi : nat) : nat :=
  bisect_loop (hi - lo) a v lo hi.

(** [np.average(rows, axis=0, weights=weights)] on rows of three columns. *)
Definition np_average (rows : list (R * R * R)) (weights : list R)
  : result (R * R * R) :=
  if negb (Nat.eqb (length rows) (length weights)) then Raise ValueError
  else
    let scl := sum weights in
    if Req_dec_T scl 0 then Raise ZeroDivisionError
    else
      let col (f : R * R * R -> R) :=
        sum (map (fun rw => f (fst rw) * snd rw) (combine rows weights)) / scl in
      Ok (col (fun r => fst (fst r)), col (fun r => snd (fst r)), col snd).

Section Filter.

Variable H : Helpers.

(** Computations of the node: they transform the node and either return a
    value or raise; what was written before the exception stays written. *)
Definition M (A : Type) : Type := Node H -> Node H * result A.

Definition ret {A : Type} (a : A) : M A := fun s => (s, Ok a).

Definition mbind {A B : Type} (m : M A) (k : A -> M B) : M B :=
  fun s => match m s with
           | (s', Ok a) => k a s'
           | (s', Raise e) => (s', Raise e)
           end.

Definition lift {A : Type} (r : result A) : M A := fun s => (s, r).

(** One call of a sampler: the generator advances. *)
Definition draw (f : rng H -> R * rng H) : M R :=
  fun s =>
    let (v, g) := f (gen s) in
    (mkNode (particles s) (robot_pose s) (last_pose s) (last_lidar s)
            (map_obstacles s) (is_updating s) (last_update s)
            (last_update_real s) (update_count s) g,
     Ok v).

Fixpoint map_M {A B : Type} (f : A -> M B) (l : list A) : M (list B) :=
  match l with
  | [] => ret []
  | a :: l' => mbind (f a) (fun b => mbind (map_M f l') (fun bs => ret (b :: bs)))
  end.

(** [k] repetitions of a computation, results in order. *)
Fixpoint repeat_M {A : Type} (k : nat) (m : M A) : M (list A) :=
  match k with
  | O => ret []
  | S k' => mbind m (fun a => mbind (repeat_M k' m) (fun l => ret (a :: l)))
  end.

End Filter.

Arguments ret {H A}.
Arguments mbind {H A B}.
Arguments lift {H A}.
Arguments draw {H}.
Arguments map_M {H A B}.
Arguments repeat_M {H A}.

Notation "v <~ m ;; k" := (mbind m (fun v => k))
  (at level 61, m at next level, right associativity).

Section Cycle.

Variable H : Helpers.

(** Attribute assignments [self.<field> = v]. *)
Definition set_particles_field (v : option (list Particle)) (s : Node H) : Node H :=
  mkNode v (robot_pose s) (last_pose s) (last_lidar s) (map_obstacles s)
         (is_updating s) (last_update s) (last_update_real s) (update_count s)
         (gen s).

Definition set_robot_pose (v : option PoseTuple) (s : Node H) : Node H :=
  mkNode (particles s) v (last_pose s) (last_lidar s) (map_obstacles s)
         (is_updating s) (last_update s) (last_update_real s) (update_count s)
         (gen s).

Definition set_last_pose (v : option PoseTuple) (s : Node H) : Node H :=
  mkNode (particles s) (robot_pose s) v (last_lidar s) (map_obstacles s)
         (is_updating s) (last_update s) (last_update_real s) (update_count s)
         (gen s).

Definition set_last_lidar (v : option (list R)) (s : Node H) : Node H :=
  mkNode (particles s) (robot_pose s) (last_pose s) v (map_obstacles s)
         (is_updating s) (last_update s) (last_update_real s) (update_count s)
         (gen s).

Definition set_is_updating (v : bool) (s : Node H) : Node H :=
  mkNode (particles s) (robot_pose s) (last_pose s) (last_lidar s)
         (map_obstacles s) v (last_update s) (last_update_real s)
         (update_count s) (gen s).

Definition set_last_update (v : Z) (s : Node H) : Node H :=
  mkNode (particles s) (robot_pose s) (last_pose s) (last_lidar s)
         (map_obstacles s) (is_updating s) v (last_update_real s)
         (update_count s) (gen s).

Definition set_last_update_real (v : Z) (s : Node H) : Node H :=
  mkNode (particles s) (robot_pose s) (last_pose s) (last_lidar s)
         (map_obstacles s) (is_updating s) (last_update s) v (update_count s)
         (gen s).

Definition set_update_count (v : nat) (s : Node H) : Node H :=
  mkNode (particles s) (robot_pose s) (last_pose s) (last_lidar s)
         (map_obstacles s) (is_updating s) (last_update s)
         (last_update_real s) v (gen s).

Definition set_gen (v : rng H) (s : Node H) : Node H :=
  mkNode (particles s) (robot_pose s) (last_pose s) (last_lidar s)
         (map_obstacles s) (is_updating s) (last_update s)
         (last_update_real s) (update_count s) v.

Definition modify (f : Node H -> Node H) : M H unit := fun s => (f s, Ok tt).

Definition get : M H (Node H) := fun s => (s, Ok s).

(** *** random.choices(population, weights=weights, k=k)

    CPython's implementation: cumulative weights, a [ValueError] unless
    their total is positive, then [k] draws located by bisection in
    [cum_weights] between 0 and [n - 1]. *)
Definition choices {A : Type} (population : list A) (weights : list R)
    (k : nat) : M H (list A) :=
  let n := length population in
  let cum_weights := accumulate weights in
  if negb (Nat.eqb (length cum_weights) n) then lift (Raise ValueError)
  else
    match rev cum_weights with
    | [] => lift (Raise IndexError)
    | total :: _ =>
        if Rle_dec total 0 then lift (Raise ValueError)
        else
          let hi := (n - 1)%nat in
          repeat_M k
            (u <~ draw (random H) ;;
             match nth_error population (bisect cum_weights (u * total) 0 hi) with
             | Some c => ret c
             | None => lift (Raise IndexError)
             end)
    end.

(** *** sample_particles (pf.py, lines 371-391) *)
Definition sample_particles (particles : list Particle)
    (xy_sigma xy_noise theta_sigma theta_noise : R) (k : nat)
  : M H (list Particle) :=
  let weights := map weight particles in
  chosen <~ choices particles weights k ;;
  map_M
    (fun choice =>
       nx <~ draw (sample_normal H (x choice) xy_sigma xy_noise
                     (x choice - 5, x choice + 5)) ;;
       ny <~ draw (sample_normal H (y choice) xy_sigma xy_noise
                     (y choice - 5, y choice + 5)) ;;
       nt <~ draw (sample_normal H (theta choice) theta_sigma theta_noise
                     (- PI, PI)) ;;
       ret (mkParticle nx ny nt 1))
    chosen.

(** *** apply_motion (pf.py, lines 339-369) *)
Definition apply_motion (particles : list Particle) (delta_pose : PoseTuple)
    (sigma : R) : M H (list Particle) :=
  dx_robot <~ draw (sample_normal_error H (pose_x delta_pose) sigma) ;;
  dy_robot <~ draw (sample_normal_error H (pose_y delta_pose) sigma) ;;
  dtheta <~ draw (sample_normal_error H (pose_theta delta_pose) sigma) ;;
  let dx := cos dtheta * dx_robot + - sin dtheta * dy_robot in
  let dy := sin dtheta * dx_robot + cos dtheta * dy_robot in
  ret (map (fun p => mkParticle (x p + dx) (y p + dy) (theta p - dtheta)
                                (weight p))
           particles).

(** *** set_particles (pf.py, lines 393-429)

    The published cloud is output only; of lines 413-429 the model keeps
    the thirty draws [random.choices(self.particles, k=30)] takes from the
    generator and the increment of [update_count].

    At a total weight of 0 the model raises [ZeroDivisionError] from
    [normalize_weights] and [particles] keeps its value.  With numpy
    weights the program stores a NaN-weighted list in [self.particles]
    first and raises the same exception from [np.average]: for such an
    input the model agrees with the program on the exception and on every
    attribute but [particles]. *)
Definition set_particles (stamp : Z) (ps : list Particle) : M H unit :=
  _ <~ modify (set_last_update stamp) ;;
  normalized <~ lift (normalize_weights ps) ;;
  _ <~ modify (set_particles_field (Some normalized)) ;;
  est <~ lift (np_average (map (fun p => (x p, y p, theta p)) normalized)
                          (map weight ps)) ;;
  _ <~ modify (set_robot_pose
                 (Some (mkPoseTuple (fst (fst est)) (snd (fst est)) (snd est)))) ;;
  _ <~ repeat_M 30 (draw (random H)) ;;
  s <~ get ;;
  modify (set_update_count (S (update_count s))).

(** *** update (pf.py, lines 149-215) *)

(** The test of line 184. *)
Definition below_motion_threshold (delta_pose : PoseTuple) : bool :=
  (if Rlt_dec (sqrt (pose_x delta_pose ^ 2 + pose_y delta_pose ^ 2)) (1 / 100)
   then true else false)
  && (if Rlt_dec (pose_theta delta_pose) (5 / 100) then true else false).

(** Lines 176-181. *)
Definition delta_of (last cur : PoseTuple) : PoseTuple :=
  mkPoseTuple (pose_x last - pose_x cur) (pose_y last - pose_y cur)
              (angle_diff H (pose_theta last) (pose_theta cur)).

(** Lines 193-204: resample, move and weigh; nothing but the generator is
    written. *)
Definition predict_and_weigh (ps : list Particle) (delta_pose : PoseTuple)
  : M H (list Particle) :=
  ps1 <~ sample_particles ps INITIAL_STATE_XY_SIGMA INITIAL_STATE_XY_NOISE
           INITIAL_STATE_THETA_SIGMA INITIAL_STATE_THETA_NOISE NUM_PARTICLES ;;
  ps2 <~ apply_motion ps1 delta_pose (15 / 100) ;;
  s <~ get ;;
  lift (map_result
          (fun p => w <- calculate_sensor_weight (map_obstacles s)
                           (last_lidar s) p ;;
                    Ok (mkParticle (x p) (y p) (theta p) w))
          ps2).

(** Lines 208-210: the pose is stored, then the particles, then the time. *)
Definition commit (msg : Odometry) (ps : list Particle) : M H unit :=
  _ <~ modify (set_last_pose (Some (odom_pose msg))) ;;
  _ <~ set_particles (odom_stamp msg) ps ;;
  modify (set_last_update_real (odom_now msg)).

(** The body of the [try] block. *)
Definition update_body (msg : Odometry) (s : Node H) : Node H * outcome :=
  let cur_pose := odom_pose msg in
  match last_pose s, particles s with
  | Some last, Some ps =>
      let delta_pose := delta_of last cur_pose in
      if below_motion_threshold delta_pose then (s, Skipped)
      else
        match predict_and_weigh ps delta_pose s with
        | (s1, Raise e) => (s1, Failed e)
        | (s1, Ok ps3) =>
            match commit msg ps3 s1 with
            | (s', Ok _) => (s', Processed delta_pose)
            | (s', Raise e) => (s', Aborted e)
            end
        end
  | _, _ => (set_last_pose (Some cur_pose) s, Recorded)
  end.

Definition update (msg : Odometry) (s : Node H) : Node H * outcome :=
  if is_updating s || (odom_stamp msg <? last_update_real s)%Z then (s, Dropped)
  else
    let (s', o) := update_body msg (set_is_updating true s) in
    (set_is_updating false s', o).

(** *** update_initial_pose (lines 136-147) and on_lidar (lines 438-439) *)
Definition update_initial_pose (stamp : Z) (pose : PoseTuple) : M H unit :=
  ps <~ sample_particles
          [mkParticle (pose_x pose) (pose_y pose) (pose_theta pose) 1]
          INITIAL_STATE_XY_SIGMA INITIAL_STATE_XY_NOISE
          INITIAL_STATE_THETA_SIGMA INITIAL_STATE_THETA_NOISE NUM_PARTICLES ;;
  set_particles stamp ps.

Definition on_lidar (ranges : list R) (s : Node H) : Node H :=
  set_last_lidar (Some ranges) s.

(** *** The callbacks as events *)
Inductive event : Type :=
| InitialPose (stamp : Z) (pose : PoseTuple)
| Odom (msg : Odometry)
| Lidar (ranges : list R).

(** One callback; an exception is reported by the middleware and the node
    carries on with what was written. *)
Definition dispatch (e : event) (s : Node H) : Node H :=
  match e with
  | InitialPose stamp pose => fst (update_initial_pose stamp pose s)
  | Odom msg => fst (update msg s)
  | Lidar ranges => on_lidar ranges s
  end.

Definition outcome_of (e : event) (s : Node H) : option outcome :=
  match e with
  | Odom msg => Some (snd (update msg s))
  | _ => None
  end.

Fixpoint run (evs : list event) (s : Node H) : Node H :=
  match evs with
  | [] => s
  | e :: evs' => run evs' (dispatch e s)
  end.

(** Pose of the most recent odometry message whose cycle was processed,
    [acc] standing for the one known before [evs]. *)
Fixpoint last_processed (evs : list event) (s : Node H)
    (acc : option PoseTuple) : option PoseTuple :=
  match evs with
  | [] => acc
  | e :: evs' =>
      last_processed evs' (dispatch e s)
        match e, outcome_of e s with
        | Odom msg, Some (Processed _) => Some (odom_pose msg)
        | _, _ => acc
        end
  end.

(** No odometry callback of the run raised once it had reached line 208. *)
Fixpoint no_abort (evs : list event) (s : Node H) : Prop :=
  match evs with
  | [] => True
  | e :: evs' =>
      (forall ex, outcome_of e s <> Some (Aborted ex))
      /\ no_abort evs' (dispatch e s)
  end.

End Cycle.

Arguments choices {H A}.
Arguments sample_particles {H}.
Arguments apply_motion {H}.
Arguments set_particles {H}.
Arguments predict_and_weigh {H}.
Arguments commit {H}.
Arguments update_body {H}.
Arguments update {H}.
Arguments update_initial_pose {H}.
Arguments on_lidar {H}.
Arguments dispatch {H}.
Arguments outcome_of {H}.
Arguments run {H}.
Arguments last_processed {H}.
Arguments no_abort {H}.

(** ** Names for parts of the code above *)

(** The bearing [obstacle_polar] rounds: lines 242-250 before
    [rad2deg(...).round()]. *)
Definition bearing (particle : Particle) (ob : R * R) : R :=
  let phi_rad :=
    arctan2 (snd ob - y particle) (fst ob - x particle) + theta particle in
  arctan2 (sin phi_rad) (cos phi_rad).

(** Array position a pair of the loop of line 260 is written to: the
    rounded bearing in degrees, a negative value counting from the end of
    the array. *)
Definition position_of (pr : Z * R) : nat := Z.to_nat (fst pr mod 360).

(** Position of [expected_lidar] an obstacle is filed under. *)
Definition bucket_of (particle : Particle) (ob : R * R) : nat :=
  Z.to_nat (fst (obstacle_polar particle ob) mod 360).

(** Line 271: a range beyond the cutoff becomes 0. *)
Definition clamp_range (rho : R) : R := if Rlt_dec 3 rho then 0 else rho.

(** What a bucket contributes in [compare_lidar] (line 293). *)
Definition contribution (actual expected : R) : R :=
  if Rlt_dec 0 (Rabs (actual - expected)) then (1 / Rabs (actual - expected)) ^ 3
  else 0.

(** What [normalize_weights] makes of one particle when [total] is not 0. *)
Definition rescale (total : R) (p : Particle) : Particle :=
  mkParticle (x p) (y p) (theta p) (weight p / total).

(** The pose [set_particles] hands to the frame correction when the total
    weight is not 0: [np.average] of each column under the weights of the
    list passed in. *)
Definition estimate_of (ps : list Particle) : PoseTuple :=
  let T := sum (map weight ps) in
  mkPoseTuple (sum (map (fun p => x p * weight p) ps) / T)
              (sum (map (fun p => y p * weight p) ps) / T)
              (sum (map (fun p => theta p * weight p) ps) / T).

(** ** Reference definitions, written from the specification's wording *)

(** Weighted arithmetic mean of [vals] under [weights]. *)
Definition weighted_mean (vals weights : list R) : R :=
  sum (map (fun vw => fst vw * snd vw) (combine vals weights)) / sum weights.

(** Specification, section 4.4 step 5: a bucket contributes
    [(1 / |actual - expected|)^3] when the actual reading is positive and
    the absolute difference is positive, and nothing otherwise. *)
Definition spec_contribution (actual expected : R) : R :=
  if Rlt_dec 0 actual then
    if Rlt_dec 0 (Rabs (actual - expected)) then (1 / Rabs (actual - expected)) ^ 3
    else 0
  else 0.

(** Specification, section 4.4 step 5: the weight is the sum of the
    contributions of the buckets. *)
Definition spec_compare_lidar (actual_lidar expected_lidar : list R) : R :=
  sum (map (fun ae => spec_contribution (fst ae) (snd ae))
           (combine actual_lidar expected_lidar)).

(** Specification, section 4.4 step 2: the bearing of an obstacle relative
    to the robot, the heading subtracted from the world-frame bearing. *)
Definition spec_bearing (particle : Particle) (ob : R * R) : R :=
  let phi_rad :=
    arctan2 (snd ob - y particle) (fst ob - x particle) - theta particle in
  arctan2 (sin phi_rad) (cos phi_rad).

(** ** Properties of computations *)

(** A computation that never raises and touches nothing but the generator;
    [P] holds of what it returns. *)
Definition only_draws {H : Helpers} {A : Type} (m : M H A) (P : A -> Prop)
  : Prop :=
  forall s, exists g a, m s = (set_gen H g s, Ok a) /\ P a.

(** A property of the node that a computation cannot destroy, whether it
    returns or raises. *)
Definition preserves {H : Helpers} {A : Type} (I : Node H -> Prop)
    (m : M H A) : Prop :=
  forall s, I s -> I (fst (m s)).

(** ** A deterministic instance of the helpers

    Every sampler returns its centre and [random()] returns 0; the
    generator state counts the draws.  [angle_diff] is the plain
    difference. *)
Definition still_helpers : Helpers :=
  mkHelpers nat
            (fun g => (0, S g))
            (fun mean _ _ _ g => (mean, S g))
            (fun mean _ g => (mean, S g))
            (fun a b => a - b).

(** A node right after start-up, with an empty map. *)
Definition fresh_node : Node still_helpers :=
  @mkNode still_helpers None None None None [] false 0%Z 0%Z 0%nat 0%nat.

(** A node that holds a particle set and the pose (0, 0, 0) as last pose,
    and has received no scan. *)
Definition settled_node : Node still_helpers :=
  @mkNode still_helpers (Some [mkParticle 0 0 0 1]) None
          (Some (mkPoseTuple 0 0 0)) None [] false 0%Z 0%Z 0%nat 0%nat.

(** ** preprocess_map (pf.py, lines 306-328) *)

(** The reply of the [static_map] service, as far as the node reads it:
    [map.info.width], [map.info.height], [map.info.resolution],
    [map.info.origin.position] and [map.data]. *)
Record OccupancyGrid : Type := mkOccupancyGrid
  { width : nat;
    height : nat;
    resolution : R;
    origin_x : R;
    origin_y : R;
    data : list Z }.

Definition occupied_b (v : Z) : bool := (0 <? v)%Z.

(** Lines 323-326: map-frame coordinates of the cell in column [x0] and
    row [y0]. *)
Definition cell_coordinate (m : OccupancyGrid) (x0 y0 : nat) : R * R :=
  (INR x0 * resolution m + origin_x m, INR y0 * resolution m + origin_y m).

(** Lines 321-327, the body of the inner loop.  The state is the array
    [occupied] and the cursor [curr]; reading [map.data] beyond its end and
    writing [occupied] beyond its end both raise [IndexError]. *)
Definition map_cell (m : OccupancyGrid) (x0 : nat)
    (st : list (R * R) * nat) (y0 : nat) : result (list (R * R) * nat) :=
  let ind := (x0 + y0 * width m)%nat in
  match nth_error (data m) ind with
  | None => Raise IndexError
  | Some v =>
      if occupied_b v then
        if Nat.ltb (snd st) (length (fst st)) then
          Ok (list_set (snd st) (cell_coordinate m x0 y0) (fst st), S (snd st))
        else Raise IndexError
      else Ok st
  end.

(** The result is what the node stores in [map_obstacles]. *)
Definition preprocess_map (m : OccupancyGrid) : result (list (R * R)) :=
  let total_occupied := length (filter occupied_b (data m)) in
  let occupied := repeat (0, 0) total_occupied in
  st <- fold_result
          (fun st x0 => fold_result (map_cell m x0) (seq 0 (height m)) st)
          (seq 0 (width m)) (occupied, 0%nat) ;;
  Ok (fst st).

(** What the cell in column [x0] and row [y0] adds to the obstacles. *)
Definition grid_cell (m : OccupancyGrid) (x0 y0 : nat) : list (R * R) :=
  if occupied_b (nth (x0 + y0 * width m) (data m) 0%Z)
  then [cell_coordinate m x0 y0] else [].

(** The occupied cells of the grid as coordinates, columns outermost. *)
Definition occupied_cells (m : OccupancyGrid) : list (R * R) :=
  flat_map (fun x0 => flat_map (grid_cell m x0) (seq 0 (height m)))
           (seq 0 (width m)).

(** A two-by-two grid, row-major [0; 100; -1; 1]: the cells (1, 0) and
    (1, 1) are occupied. *)
Definition small_grid : OccupancyGrid :=
  mkOccupancyGrid 2 2 (1 / 2) 1 2 [0; 100; -1; 1]%Z.

(** [p] is what lines 381-389 can make of the drawn particle [choice]:
    each coordinate is a draw of [sample_normal] centred on the
    coordinate of [choice], the weight is 1. *)
Definition jitter_of (H : Helpers) (xy_sigma xy_noise theta_sigma theta_noise : R)
    (choice p : Particle) : Prop :=
  (exists g, x p = fst (sample_normal H (x choice) xy_sigma xy_noise
                          (x choice - 5, x choice + 5) g))
  /\ (exists g, y p = fst (sample_normal H (y choice) xy_sigma xy_noise
                             (y choice - 5, y choice + 5) g))
  /\ (exists g, theta p = fst (sample_normal H (theta choice) theta_sigma
                                 theta_noise (- PI, PI) g))
  /\ weight p = 1.

(** A particle moved by [(dx, dy)] and turned by [- dtheta]. *)
Definition moved (dx dy dtheta : R) (p : Particle) : Particle :=
  mkParticle (x p + dx) (y p + dy) (theta p - dtheta) (weight p).

(** A particle with its weight multiplied by [c]. *)
Definition scale_weight (c : R) (p : Particle) : Particle :=
  mkParticle (x p) (y p) (theta p) (c * weight p).

(** [settled_node] after a scan without a single return has arrived. *)
Definition blank_node : Node still_helpers :=
  @mkNode still_helpers (Some [mkParticle 0 0 0 1]) None
          (Some (mkPoseTuple 0 0 0)) (Some (repeat 0 361)) [] false
          0%Z 0%Z 0%nat 0%nat.

(** Specification, section 4.4 step 4, as its example of ranges 2.0 and
    4.0 reads it: the expected range of a bucket is the least of the
    ranges within the cutoff, and 0 when no obstacle of the bucket is
    within the cutoff. *)
Fixpoint nearest_in_range (rhos : list R) : option R :=
  match rhos with
  | [] => None
  | rho :: rest =>
      if Rlt_dec 3 rho then nearest_in_range rest
      else match nearest_in_range rest with
           | Some m => Some (Rmin rho m)
           | None => Some rho
           end
  end.

Definition spec_expected_range (rhos : list R) : R :=
  match nearest_in_range rhos with
  | Some m => m
  | None => 0
  end.

(** A run in which the second cycle raises: a first message moves the
    robot to (1, 0, 0), then a scan without a return arrives, then a
    message with the robot at (2, 0, 0). *)
Definition aborting_run : list event :=
  [Odom (mkOdometry 1 (mkPoseTuple 1 0 0) 2);
   Lidar (repeat 0 361);
   Odom (mkOdometry 3 (mkPoseTuple 2 0 0) 4)].

(** ** Sums and comprehensions *)

Lemma fold_left_Rplus_acc (l : list R) (a : R) :
  fold_left Rplus l a = a + fold_left Rplus l 0.
Proof.
  revert a. induction l as [|b l IH]; intros a; simpl.
  - lra.
  - rewrite (IH (a + b)), (IH (0 + b)). lra.
Qed.

Lemma sum_nil : sum [] = 0.
Proof. reflexivity. Qed.

Lemma sum_cons (a : R) (l : list R) : sum (a :: l) = a + sum l.
Proof.
  unfold sum. simpl. rewrite fold_left_Rplus_acc. lra.
Qed.

Lemma sum_map_scale {A : Type} (f : A -> R) (c : R) (l : list A) :
  sum (map (fun a => f a * c) l) = sum (map f l) * c.
Proof.
  induction l as [|a l IH]; simpl.
  - rewrite sum_nil. lra.
  - rewrite !sum_cons, IH. lra.
Qed.

Lemma sum_nonneg (l : list R) : Forall (fun w => 0 <= w) l -> 0 <= sum l.
Proof.
  induction 1 as [|w l Hw _ IH].
  - rewrite sum_nil. lra.
  - rewrite sum_cons. lra.
Qed.

Lemma sum_pos (l : list R) :
  Forall (fun w => 0 <= w) l -> Exists (fun w => 0 < w) l -> 0 < sum l.
Proof.
  intros Hall Hex. induction Hex as [w l Hw | w l _ IH].
  - inversion Hall; subst. rewrite sum_cons.
    pose proof (sum_nonneg l ltac:(assumption)). lra.
  - inversion Hall; subst. rewrite sum_cons.
    specialize (IH ltac:(assumption)). lra.
Qed.

Lemma sum_all_zero (l : list R) : Forall (fun w => w = 0) l -> sum l = 0.
Proof.
  induction 1 as [|w l Hw _ IH].
  - apply sum_nil.
  - rewrite sum_cons, Hw, IH. lra.
Qed.

Lemma map_result_total {A B : Type} (f : A -> result B) (g : A -> B)
    (l : list A) :
  (forall a, In a l -> f a = Ok (g a)) -> map_result f l = Ok (map g l).
Proof.
  induction l as [|a l IH]; intros Hf; simpl.
  - reflexivity.
  - rewrite (Hf a (or_introl eq_refl)). simpl.
    rewrite IH by (intros b Hb; apply Hf; now right). reflexivity.
Qed.

(** ** normalize_weights *)

Lemma normalize_weights_nonzero (ps : list Particle) :
  sum (map weight ps) <> 0 ->
  normalize_weights ps = Ok (map (rescale (sum (map weight ps))) ps).
Proof.
  intros Ht. unfold normalize_weights.
  apply map_result_total. intros p _. unfold py_div.
  destruct (Req_dec_T (sum (map weight ps)) 0) as [E | _]; [contradiction|].
  reflexivity.
Qed.

Lemma normalize_weights_zero (ps : list Particle) :
  ps <> [] -> sum (map weight ps) = 0 ->
  normalize_weights ps = Raise ZeroDivisionError.
Proof.
  intros Hne Ht. destruct ps as [|p ps]; [contradiction|].
  unfold normalize_weights. rewrite Ht. simpl. unfold py_div.
  destruct (Req_dec_T 0 0) as [_ | N]; [reflexivity | contradiction].
Qed.

Lemma sum_weight_rescale (total : R) (ps : list Particle) :
  sum (map weight (map (rescale total) ps)) = sum (map weight ps) / total.
Proof.
  rewrite map_map. unfold rescale; simpl. unfold Rdiv.
  apply (sum_map_scale weight (/ total) ps).
Qed.

Lemma weights_pos_total (ps : list Particle) :
  Forall (fun p => 0 <= weight p) ps -> Exists (fun p => 0 < weight p) ps ->
  0 < sum (map weight ps).
Proof.
  intros Hall Hex. apply sum_pos.
  - apply Forall_map. exact Hall.
  - apply Exists_map. exact Hex.
Qed.

(** C6.  Whenever the weights of a particle list have a strictly positive
    total, [normalize_weights] returns a list of the same length, in which
    every particle keeps its (x, y, theta), and whose weights sum to 1
    (exactly so over the reals, hence within any tolerance); the list is
    arbitrary, so this covers every population and every cycle. *)
Theorem normalize_weights_sum_one (ps : list Particle) :
  0 < sum (map weight ps) ->
  exists ps',
    normalize_weights ps = Ok ps'
    /\ length ps' = length ps
    /\ map (fun p => (x p, y p, theta p)) ps'
       = map (fun p => (x p, y p, theta p)) ps
    /\ sum (map weight ps') = 1.
Proof.
  intros Hpos.
  exists (map (rescale (sum (map weight ps))) ps). repeat split.
  - apply normalize_weights_nonzero. lra.
  - apply length_map.
  - rewrite map_map. reflexivity.
  - rewrite sum_weight_rescale. field. lra.
Qed.

Lemma normalize_weights_sum_one_witness :
  exists ps',
    normalize_weights [mkParticle 0 0 0 2; mkParticle 1 (-1) 3 6] = Ok ps'
    /\ length ps' = 2%nat
    /\ map (fun p => (x p, y p, theta p)) ps' = [(0, 0, 0); (1, -1, 3)]
    /\ sum (map weight ps') = 1.
Proof.
  apply (normalize_weights_sum_one [mkParticle 0 0 0 2; mkParticle 1 (-1) 3 6]).
  unfold sum. simpl. lra.
Defined.

(** C10.  [normalize_weights] divides each weight by the total without a
    guard: a nonzero total makes every division succeed; with
    non-negative weights (the data model's invariant) of which one is
    strictly positive the total is positive and no exception is possible;
    a non-empty input whose weights are all zero raises the division by
    zero; and that is the only exception the function can raise. *)
Theorem normalize_weights_division (ps : list Particle) :
  (sum (map weight ps) <> 0 -> exists ps', normalize_weights ps = Ok ps')
  /\ (Forall (fun p => 0 <= weight p) ps -> Exists (fun p => 0 < weight p) ps ->
      exists ps', normalize_weights ps = Ok ps')
  /\ (ps <> [] -> Forall (fun p => weight p = 0) ps ->
      normalize_weights ps = Raise ZeroDivisionError)
  /\ (forall e, normalize_weights ps = Raise e ->
      e = ZeroDivisionError /\ sum (map weight ps) = 0).
Proof.
  repeat split.
  - intros Ht. eexists. apply normalize_weights_nonzero. exact Ht.
  - intros Hall Hex. pose proof (weights_pos_total ps Hall Hex).
    eexists. apply normalize_weights_nonzero. lra.
  - intros Hne Hz. apply normalize_weights_zero; [exact Hne|].
    apply sum_all_zero. apply Forall_map. exact Hz.
  - destruct (Req_dec_T (sum (map weight ps)) 0) as [E | N].
    + destruct ps as [|p ps]; [discriminate|].
      rewrite normalize_weights_zero in H by (congruence || exact E).
      congruence.
    + rewrite normalize_weights_nonzero in H by exact N. discriminate.
  - destruct (Req_dec_T (sum (map weight ps)) 0) as [E | N]; [exact E|].
    rewrite normalize_weights_nonzero in H by exact N. discriminate.
Qed.

Lemma normalize_weights_division_witness :
  (exists ps', normalize_weights [mkParticle 0 0 0 1; mkParticle 2 0 0 3] = Ok ps')
  /\ (exists ps', normalize_weights [mkParticle 0 0 0 0; mkParticle 2 0 0 5] = Ok ps')
  /\ normalize_weights [mkParticle 0 0 0 0; mkParticle 2 0 0 0]
     = Raise ZeroDivisionError.
Proof.
  split; [|split].
  - apply (proj1 (normalize_weights_division
                     [mkParticle 0 0 0 1; mkParticle 2 0 0 3])).
    unfold sum. simpl. lra.
  - apply (proj1 (proj2 (normalize_weights_division
                            [mkParticle 0 0 0 0; mkParticle 2 0 0 5]))).
    + repeat constructor; simpl; lra.
    + apply Exists_cons_tl. constructor. simpl. lra.
  - apply (normalize_weights_division [mkParticle 0 0 0 0; mkParticle 2 0 0 0]).
    + discriminate.
    + repeat constructor.
Defined.

(** ** The generator and the monad *)

Lemma draw_eq (H : Helpers) (f : rng H -> R * rng H) (s : Node H) :
  draw f s = (set_gen H (snd (f (gen s))) s, Ok (fst (f (gen s)))).
Proof.
  unfold draw, set_gen. destruct (f (gen s)); reflexivity.
Qed.

Lemma set_gen_same (H : Helpers) (s : Node H) : set_gen H (gen s) s = s.
Proof. destruct s; reflexivity. Qed.

Lemma repeat_draw (H : Helpers) (f : rng H -> R * rng H) (k : nat) (s : Node H) :
  exists g l, repeat_M k (draw f) s = (set_gen H g s, Ok l) /\ length l = k.
Proof.
  revert s. induction k as [|k IH]; intros s; simpl.
  - exists (gen s), []. unfold ret. rewrite set_gen_same. auto.
  - unfold mbind at 1. rewrite draw_eq.
    destruct (IH (set_gen H (snd (f (gen s))) s)) as (g & l & E & Hl).
    unfold mbind at 1. rewrite E. unfold ret.
    exists g, (fst (f (gen s)) :: l). simpl. split; [reflexivity | now rewrite Hl].
Qed.

(** ** set_particles and the pose estimate *)

Lemma estimate_column (g : R * R * R -> R) (h : Particle -> R) (T : R)
    (ps : list Particle) :
  (forall p, g (x p, y p, theta p) = h p) ->
  sum (map (fun rw => g (fst rw) * snd rw)
           (combine (map (fun p => (x p, y p, theta p)) (map (rescale T) ps))
                    (map weight ps)))
  = sum (map (fun p => h p * weight p) ps).
Proof.
  intros Hg. induction ps as [|p ps IH]; simpl.
  - reflexivity.
  - rewrite !sum_cons, IH, Hg. reflexivity.
Qed.

Lemma weighted_column (h : Particle -> R) (T : R) (ps : list Particle) :
  (forall p, h (rescale T p) = h p) ->
  sum (map (fun vw => fst vw * snd vw)
           (combine (map h (map (rescale T) ps))
                    (map weight (map (rescale T) ps))))
  = sum (map (fun p => h p * weight p) ps) / T.
Proof.
  intros Hh. induction ps as [|p ps IH]; simpl.
  - rewrite sum_nil. unfold Rdiv. ring.
  - rewrite !sum_cons, IH, Hh. simpl. unfold Rdiv. ring.
Qed.

Lemma weighted_mean_rescale (h : Particle -> R) (ps : list Particle) :
  (forall p, h (rescale (sum (map weight ps)) p) = h p) ->
  sum (map weight ps) <> 0 ->
  weighted_mean (map h (map (rescale (sum (map weight ps))) ps))
                (map weight (map (rescale (sum (map weight ps))) ps))
  = sum (map (fun p => h p * weight p) ps) / sum (map weight ps).
Proof.
  intros Hh Ht. unfold weighted_mean.
  rewrite weighted_column by exact Hh.
  rewrite sum_weight_rescale. field. exact Ht.
Qed.

Lemma np_average_rescale (ps : list Particle) :
  sum (map weight ps) <> 0 ->
  np_average (map (fun p => (x p, y p, theta p))
                  (map (rescale (sum (map weight ps))) ps))
             (map weight ps)
  = Ok (pose_x (estimate_of ps), pose_y (estimate_of ps),
        pose_theta (estimate_of ps)).
Proof.
  intros Ht. unfold np_average.
  rewrite !length_map, Nat.eqb_refl. simpl negb. cbv iota.
  destruct (Req_dec_T (sum (map weight ps)) 0) as [E | _]; [contradiction|].
  rewrite (estimate_column (fun r => fst (fst r)) x) by reflexivity.
  rewrite (estimate_column (fun r => snd (fst r)) y) by reflexivity.
  rewrite (estimate_column snd theta) by reflexivity.
  reflexivity.
Qed.

Lemma set_particles_nonzero (H : Helpers) (stamp : Z) (ps : list Particle)
    (s : Node H) :
  sum (map weight ps) <> 0 ->
  exists g,
    set_particles stamp ps s
    = (set_update_count H (S (update_count s))
         (set_gen H g
            (set_robot_pose H (Some (estimate_of ps))
               (set_particles_field H
                  (Some (map (rescale (sum (map weight ps))) ps))
                  (set_last_update H stamp s)))),
       Ok tt).
Proof.
  intros Ht. unfold set_particles.
  unfold mbind at 1. unfold modify at 1.
  unfold mbind at 1. unfold lift at 1.
  rewrite normalize_weights_nonzero by exact Ht.
  unfold mbind at 1. unfold modify at 1.
  unfold mbind at 1. unfold lift at 1.
  rewrite np_average_rescale by exact Ht.
  unfold mbind at 1. unfold modify at 1.
  unfold mbind at 1.
  match goal with
  | |- context [repeat_M 30 (draw ?f) ?s0] =>
      destruct (repeat_draw H f 30 s0) as (g & l & E & _); rewrite E
  end.
  exists g. reflexivity.
Qed.

(** C8.  The pose [set_particles] estimates is the weighted arithmetic mean
    of x, of y and of theta, each on its own, over the normalized particle
    set; theta is averaged as a plain number (headings 3 and -3 average to
    0, where a circular mean would give PI).  Two particles at x = 0 and
    x = 2 with weight 0.5 each and the same y and theta give x = 1. *)
Theorem pose_estimate_weighted_mean (H : Helpers) (stamp : Z) (s : Node H) :
  (forall ps, sum (map weight ps) <> 0 ->
     exists ps',
       normalize_weights ps = Ok ps'
       /\ snd (set_particles stamp ps s) = Ok tt
       /\ particles (fst (set_particles stamp ps s)) = Some ps'
       /\ robot_pose (fst (set_particles stamp ps s))
          = Some (mkPoseTuple
                    (weighted_mean (map x ps') (map weight ps'))
                    (weighted_mean (map y ps') (map weight ps'))
                    (weighted_mean (map theta ps') (map weight ps'))))
  /\ (forall y0 t0,
        robot_pose
          (fst (set_particles stamp
                  [mkParticle 0 y0 t0 (1 / 2); mkParticle 2 y0 t0 (1 / 2)] s))
        = Some (mkPoseTuple 1 y0 t0))
  /\ robot_pose
       (fst (set_particles stamp
               [mkParticle 0 0 3 (1 / 2); mkParticle 0 0 (-3) (1 / 2)] s))
     = Some (mkPoseTuple 0 0 0).
Proof.
  split; [|split].
  - intros ps Ht.
    destruct (set_particles_nonzero H stamp ps s Ht) as [g E].
    exists (map (rescale (sum (map weight ps))) ps). rewrite E. simpl.
    repeat split.
    + apply normalize_weights_nonzero. exact Ht.
    + unfold estimate_of.
      rewrite !weighted_mean_rescale by (reflexivity || exact Ht).
      reflexivity.
  - intros y0 t0.
    assert (Ht : sum (map weight [mkParticle 0 y0 t0 (1 / 2);
                                  mkParticle 2 y0 t0 (1 / 2)]) <> 0)
      by (unfold sum; simpl; lra).
    destruct (set_particles_nonzero H stamp _ s Ht) as [g E].
    rewrite E. simpl. unfold estimate_of, sum. simpl.
    do 2 f_equal; field.
  - assert (Ht : sum (map weight [mkParticle 0 0 3 (1 / 2);
                                  mkParticle 0 0 (-3) (1 / 2)]) <> 0)
      by (unfold sum; simpl; lra).
    destruct (set_particles_nonzero H stamp _ s Ht) as [g E].
    rewrite E. simpl. unfold estimate_of, sum. simpl.
    do 2 f_equal; field.
Qed.

Lemma pose_estimate_weighted_mean_witness :
  exists ps',
    normalize_weights [mkParticle 0 1 0 2; mkParticle 4 1 0 6] = Ok ps'
    /\ snd (set_particles 7%Z [mkParticle 0 1 0 2; mkParticle 4 1 0 6] fresh_node)
       = Ok tt
    /\ particles
         (fst (set_particles 7%Z [mkParticle 0 1 0 2; mkParticle 4 1 0 6]
                 fresh_node))
       = Some ps'
    /\ robot_pose
         (fst (set_particles 7%Z [mkParticle 0 1 0 2; mkParticle 4 1 0 6]
                 fresh_node))
       = Some (mkPoseTuple
                 (weighted_mean (map x ps') (map weight ps'))
                 (weighted_mean (map y ps') (map weight ps'))
                 (weighted_mean (map theta ps') (map weight ps'))).
Proof.
  apply (proj1 (pose_estimate_weighted_mean still_helpers 7%Z fresh_node)).
  unfold sum. simpl. lra.
Defined.

(** ** Computations that only draw random numbers *)

Lemma only_draws_ret (H : Helpers) (A : Type) (a : A) (P : A -> Prop) :
  P a -> only_draws (@ret H A a) P.
Proof.
  intros Ha s. exists (gen s), a. unfold ret. now rewrite set_gen_same.
Qed.

Lemma only_draws_draw (H : Helpers) (f : rng H -> R * rng H) :
  only_draws (draw f) (fun _ => True).
Proof.
  intros s. rewrite draw_eq. eauto.
Qed.

Lemma only_draws_bind (H : Helpers) (A B : Type) (m : M H A) (k : A -> M H B)
    (P : A -> Prop) (Q : B -> Prop) :
  only_draws m P -> (forall a, P a -> only_draws (k a) Q) ->
  only_draws (mbind m k) Q.
Proof.
  intros Hm Hk s. destruct (Hm s) as (g & a & E & Ha).
  destruct (Hk a Ha (set_gen H g s)) as (g' & b & E' & Hb).
  exists g', b. unfold mbind. rewrite E, E'. split; [reflexivity | exact Hb].
Qed.

Lemma only_draws_weaken (H : Helpers) (A : Type) (m : M H A)
    (P Q : A -> Prop) :
  only_draws m P -> (forall a, P a -> Q a) -> only_draws m Q.
Proof.
  intros Hm HPQ s. destruct (Hm s) as (g & a & E & Ha). eauto.
Qed.

Lemma only_draws_repeat (H : Helpers) (A : Type) (m : M H A) (P : A -> Prop)
    (k : nat) :
  only_draws m P ->
  only_draws (repeat_M k m) (fun l => length l = k /\ Forall P l).
Proof.
  intros Hm. induction k as [|k IH]; simpl.
  - apply only_draws_ret. auto.
  - eapply only_draws_bind; [exact Hm|]. intros a Ha.
    eapply only_draws_bind; [exact IH|]. intros l [Hl Hall].
    apply only_draws_ret. simpl. auto.
Qed.

Lemma only_draws_map (H : Helpers) (A B : Type) (f : A -> M H B)
    (Q : B -> Prop) (l : list A) :
  (forall a, In a l -> only_draws (f a) Q) ->
  only_draws (map_M f l) (fun bs => length bs = length l /\ Forall Q bs).
Proof.
  induction l as [|a l IH]; intros Hf; simpl.
  - apply only_draws_ret. auto.
  - eapply only_draws_bind; [apply Hf; now left|]. intros b Hb.
    eapply only_draws_bind; [apply IH; intros; apply Hf; now right|].
    intros bs [Hl Hall]. apply only_draws_ret. simpl. auto.
Qed.

(** ** random.choices *)

Lemma length_accumulate_from (a : R) (l : list R) :
  length (accumulate_from a l) = length l.
Proof.
  revert a. induction l as [|w l IH]; intros a; simpl; [|rewrite IH]; reflexivity.
Qed.

Lemma last_accumulate_from (a w : R) (l : list R) :
  exists front, rev (accumulate_from a (w :: l)) = (a + sum (w :: l)) :: front.
Proof.
  revert a w. induction l as [|w' l IH]; intros a w.
  - exists []. simpl. rewrite sum_cons, sum_nil. f_equal. lra.
  - destruct (IH (a + w) w') as [front E].
    change (accumulate_from a (w :: w' :: l))
      with ((a + w) :: accumulate_from (a + w) (w' :: l)).
    cbn [rev]. rewrite E. exists (front ++ [a + w]). simpl.
    f_equal. rewrite (sum_cons w). lra.
Qed.

Lemma bisect_loop_bounds (fuel : nat) (a : list R) (v : R) (lo hi : nat) :
  (lo <= hi)%nat ->
  (lo <= bisect_loop fuel a v lo hi <= hi)%nat.
Proof.
  revert lo hi. induction fuel as [|fuel IH]; intros lo hi Hle; cbn [bisect_loop].
  - lia.
  - destruct (Nat.ltb_spec lo hi) as [Hlt | Hge]; [|lia].
    assert (Hmid : (lo <= (lo + hi) / 2 < hi)%nat).
    { split.
      - apply Nat.div_le_lower_bound; lia.
      - apply Nat.Div0.div_lt_upper_bound; lia. }
    destruct (Rlt_dec v (nth ((lo + hi) / 2) a 0)).
    + specialize (IH lo ((lo + hi) / 2)%nat ltac:(lia)). lia.
    + specialize (IH (S ((lo + hi) / 2)) hi ltac:(lia)). lia.
Qed.

(** The window width is fuel enough: more fuel does not change the result,
    so [bisect] is the loop run to its end. *)
Lemma bisect_loop_fuel (fuel fuel' : nat) (a : list R) (v : R) (lo hi : nat) :
  (hi - lo <= fuel)%nat -> (hi - lo <= fuel')%nat ->
  bisect_loop fuel a v lo hi = bisect_loop fuel' a v lo hi.
Proof.
  revert fuel' lo hi.
  induction fuel as [|fuel IH]; intros [|fuel'] lo hi Hf Hf';
    cbn [bisect_loop]; try reflexivity.
  - destruct (Nat.ltb_spec lo hi); [lia | reflexivity].
  - destruct (Nat.ltb_spec lo hi); [lia | reflexivity].
  - destruct (Nat.ltb_spec lo hi) as [Hlt | Hge]; [|reflexivity].
    assert (Hmid : (lo <= (lo + hi) / 2 < hi)%nat).
    { split.
      - apply Nat.div_le_lower_bound; lia.
      - apply Nat.Div0.div_lt_upper_bound; lia. }
    destruct (Rlt_dec v (nth ((lo + hi) / 2) a 0)); apply IH; lia.
Qed.

Lemma choices_positive (H : Helpers) (A : Type) (population : list A)
    (weights : list R) (k : nat) :
  length weights = length population -> 0 < sum weights ->
  only_draws (@choices H A population weights k)
             (fun l => length l = k /\ Forall (fun c => In c population) l).
Proof.
  intros Hlen Hpos. unfold choices, accumulate.
  rewrite length_accumulate_from, Hlen, Nat.eqb_refl. simpl negb. cbv iota.
  destruct weights as [|w ws].
  { rewrite sum_nil in Hpos. lra. }
  destruct (last_accumulate_from 0 w ws) as [front E]. rewrite E.
  destruct (Rle_dec (0 + sum (w :: ws)) 0) as [Hle | _]; [lra|].
  apply only_draws_repeat.
  eapply only_draws_bind; [apply only_draws_draw|]. intros u _.
  match goal with
  | |- context [nth_error population ?i] =>
      assert (Hi : (i < length population)%nat)
  end.
  { unfold bisect.
    pose proof (bisect_loop_bounds (length population - 1 - 0)
                  (accumulate_from 0 (w :: ws)) (u * (0 + sum (w :: ws)))
                  0 (length population - 1) ltac:(lia)) as Hb.
    simpl in Hlen. lia. }
  match goal with
  | |- context [nth_error population ?i] =>
      destruct (nth_error population i) as [c|] eqn:En
  end.
  - apply only_draws_ret. eapply nth_error_In. exact En.
  - apply nth_error_None in En. lia.
Qed.

(** ** sample_particles and apply_motion *)

Lemma sample_particles_positive (H : Helpers) (ps : list Particle)
    (xy_sigma xy_noise theta_sigma theta_noise : R) (k : nat) :
  0 < sum (map weight ps) ->
  only_draws
    (@sample_particles H ps xy_sigma xy_noise theta_sigma theta_noise k)
    (fun out => length out = k /\ Forall (fun p => weight p = 1) out).
Proof.
  intros Hpos. unfold sample_particles.
  eapply only_draws_bind.
  - apply choices_positive; [apply length_map | exact Hpos].
  - intros chosen [Hlen _].
    eapply only_draws_weaken.
    + apply only_draws_map with (Q := fun p => weight p = 1).
      intros c _.
      eapply only_draws_bind; [apply only_draws_draw|]. intros nx _.
      eapply only_draws_bind; [apply only_draws_draw|]. intros ny _.
      eapply only_draws_bind; [apply only_draws_draw|]. intros nt _.
      apply only_draws_ret. reflexivity.
    + simpl. intros out [Hl Hall]. split; [congruence | exact Hall].
Qed.

Lemma apply_motion_weights (H : Helpers) (ps : list Particle)
    (delta_pose : PoseTuple) (sigma : R) :
  only_draws (@apply_motion H ps delta_pose sigma)
             (fun out => map weight out = map weight ps).
Proof.
  unfold apply_motion.
  eapply only_draws_bind; [apply only_draws_draw|]. intros dxr _.
  eapply only_draws_bind; [apply only_draws_draw|]. intros dyr _.
  eapply only_draws_bind; [apply only_draws_draw|]. intros dth _.
  apply only_draws_ret. rewrite map_map. reflexivity.
Qed.

(** C7.  Given non-negative weights of which at least one is strictly
    positive, [sample_particles] returns, for every input population and
    every target count [k], exactly [k] particles, each of weight 1. *)
Theorem sample_particles_count (H : Helpers) (ps : list Particle)
    (xy_sigma xy_noise theta_sigma theta_noise : R) (k : nat) (s : Node H) :
  Forall (fun p => 0 <= weight p) ps ->
  Exists (fun p => 0 < weight p) ps ->
  exists out,
    snd (sample_particles ps xy_sigma xy_noise theta_sigma theta_noise k s)
    = Ok out
    /\ length out = k
    /\ Forall (fun p => weight p = 1) out.
Proof.
  intros Hall Hex.
  destruct (sample_particles_positive H ps xy_sigma xy_noise theta_sigma
              theta_noise k (weights_pos_total ps Hall Hex) s)
    as (g & out & E & Hlen & Hw).
  exists out. rewrite E. auto.
Qed.

Lemma sample_particles_count_witness :
  exists out,
    snd (sample_particles
           [mkParticle 0 0 0 0; mkParticle 1 2 3 (1 / 4); mkParticle 5 5 1 2]
           INITIAL_STATE_XY_SIGMA INITIAL_STATE_XY_NOISE
           INITIAL_STATE_THETA_SIGMA INITIAL_STATE_THETA_NOISE 7 fresh_node)
    = Ok out
    /\ length out = 7%nat
    /\ Forall (fun p => weight p = 1) out.
Proof.
  apply (sample_particles_count still_helpers).
  - repeat constructor; simpl; lra.
  - apply Exists_cons_tl. constructor. simpl. lra.
Defined.

(** ** Angles and rounding *)

Lemma atan_nonpos (t : R) : t <= 0 -> atan t <= 0.
Proof.
  intros [Hlt | Heq].
  - rewrite <- atan_0. left. apply atan_increasing. exact Hlt.
  - rewrite Heq, atan_0. lra.
Qed.

Lemma atan_pos (t : R) : 0 < t -> 0 < atan t.
Proof.
  intros Ht. rewrite <- atan_0. apply atan_increasing. exact Ht.
Qed.

Lemma arctan2_range (y0 x0 : R) : - PI < arctan2 y0 x0 <= PI.
Proof.
  pose proof PI_RGT_0 as HPI.
  pose proof (atan_bound (y0 / x0)) as [Hlo Hhi].
  unfold arctan2.
  destruct (Rlt_dec 0 x0) as [Hx | Hx]; [lra|].
  destruct (Rlt_dec x0 0) as [Hx' | Hx'].
  - destruct (Rle_dec 0 y0) as [Hy | Hy].
    + assert (y0 / x0 <= 0).
      { unfold Rdiv. assert (/ x0 < 0) by (apply Rinv_lt_0_compat; exact Hx').
        nra. }
      pose proof (atan_nonpos _ H). lra.
    + assert (0 < y0 / x0).
      { unfold Rdiv. assert (/ x0 < 0) by (apply Rinv_lt_0_compat; exact Hx').
        nra. }
      pose proof (atan_pos _ H). lra.
  - destruct (Rlt_dec 0 y0); [lra|]. destruct (Rlt_dec y0 0); lra.
Qed.

Lemma rad2deg_range (r : R) : - PI < r <= PI -> -180 < rad2deg r <= 180.
Proof.
  intros [Hlo Hhi]. pose proof PI_RGT_0 as HPI. unfold rad2deg.
  assert (Hk : 0 < 180 / PI) by (apply Rdiv_lt_0_compat; lra).
  assert (E : PI * (180 / PI) = 180) by (field; lra).
  split; nra.
Qed.

Lemma floor_spec (r : R) : IZR (floor r) <= r < IZR (floor r) + 1.
Proof.
  unfold floor. rewrite minus_IZR. destruct (archimed r) as [Hup Hlow]. lra.
Qed.

Lemma floor_unique (r : R) (z : Z) : IZR z <= r < IZR z + 1 -> floor r = z.
Proof.
  intros [Hlo Hhi]. pose proof (floor_spec r) as [Flo Fhi].
  assert (floor r < z + 1)%Z by (apply lt_IZR; rewrite plus_IZR; lra).
  assert (z < floor r + 1)%Z by (apply lt_IZR; rewrite plus_IZR; lra).
  lia.
Qed.

Lemma np_round_cases (r : R) :
  (np_round r = floor r /\ r - IZR (floor r) <= 1 / 2)
  \/ (np_round r = (floor r + 1)%Z /\ 1 / 2 <= r - IZR (floor r)).
Proof.
  unfold np_round.
  destruct (Rlt_dec (r - IZR (floor r)) (1 / 2)); [left; split; [reflexivity | lra]|].
  destruct (Rlt_dec (1 / 2) (r - IZR (floor r))); [right; split; [reflexivity | lra]|].
  destruct (Z.even (floor r)); [left | right]; split; (reflexivity || lra).
Qed.

(** The rounded value is a nearest integer. *)
Lemma np_round_nearest (r : R) : Rabs (r - IZR (np_round r)) <= 1 / 2.
Proof.
  pose proof (floor_spec r) as [Flo Fhi].
  destruct (np_round_cases r) as [[E Hd] | [E Hd]]; rewrite E.
  - rewrite Rabs_right; lra.
  - rewrite plus_IZR, Rabs_left1; lra.
Qed.

(** A tie goes to the even neighbour. *)
Lemma np_round_tie (z : Z) :
  np_round (IZR z + 1 / 2) = if Z.even z then z else (z + 1)%Z.
Proof.
  assert (F : floor (IZR z + 1 / 2) = z) by (apply floor_unique; lra).
  unfold np_round. rewrite F.
  destruct (Rlt_dec (IZR z + 1 / 2 - IZR z) (1 / 2)); [lra|].
  destruct (Rlt_dec (1 / 2) (IZR z + 1 / 2 - IZR z)); [lra|].
  reflexivity.
Qed.

Lemma np_round_IZR (z : Z) : np_round (IZR z) = z.
Proof.
  assert (F : floor (IZR z) = z) by (apply floor_unique; lra).
  unfold np_round. rewrite F.
  destruct (Rlt_dec (IZR z - IZR z) (1 / 2)); [reflexivity | lra].
Qed.

Lemma np_round_between (r : R) (a b : Z) :
  IZR a <= r <= IZR b -> (a <= np_round r <= b)%Z.
Proof.
  intros [Ha Hb]. pose proof (floor_spec r) as [Flo Fhi].
  assert (a < floor r + 1)%Z by (apply lt_IZR; rewrite plus_IZR; lra).
  assert (floor r <= b)%Z by (apply le_IZR; lra).
  destruct (np_round_cases r) as [[E Hd] | [E Hd]]; rewrite E; [lia|].
  assert (floor r < b)%Z by (apply lt_IZR; lra).
  lia.
Qed.

Lemma np_index_wraps (i : Z) :
  (-180 <= i <= 180)%Z ->
  np_index 360 i = Ok (Z.to_nat (i mod 360)) /\ (Z.to_nat (i mod 360) < 360)%nat.
Proof.
  intros Hi. split.
  - unfold np_index. change (Z.of_nat 360) with 360%Z.
    destruct (Z.leb_spec 0 i) as [Hp | Hn].
    + destruct (Z.ltb_spec i 360) as [_ | ?]; [|lia]. cbn [andb].
      rewrite Z.mod_small by lia. reflexivity.
    + cbn [andb].
      destruct (Z.leb_spec (- (360)) i) as [_ | ?]; [|lia].
      destruct (Z.ltb_spec i 0) as [_ | ?]; [|lia]. cbn [andb].
      assert (E : (i mod 360 = i + 360)%Z).
      { replace i with (i + 360 + (-1) * 360)%Z at 1 by lia.
        rewrite Z.mod_add by lia. apply Z.mod_small. lia. }
      rewrite E. reflexivity.
  - pose proof (Z.mod_pos_bound i 360 ltac:(lia)). lia.
Qed.

Lemma arctan2_polar (r a : R) :
  0 < r -> - (PI / 2) < a < PI / 2 -> arctan2 (r * sin a) (r * cos a) = a.
Proof.
  intros Hr [Hlo Hhi]. pose proof (cos_gt_0 a Hlo Hhi) as Hc.
  unfold arctan2. destruct (Rlt_dec 0 (r * cos a)) as [_ | N]; [|nra].
  replace (r * sin a / (r * cos a)) with (tan a)
    by (unfold tan; field; split; lra).
  apply atan_tan. split; assumption.
Qed.

Lemma sin_cos_norm (r a : R) :
  0 <= r -> sqrt ((r * cos a) ^ 2 + (r * sin a) ^ 2) = r.
Proof.
  intros Hr. pose proof (sin2_cos2 a) as E. unfold Rsqr in E.
  replace ((r * cos a) ^ 2 + (r * sin a) ^ 2) with (r ^ 2) by nra.
  apply sqrt_pow2. exact Hr.
Qed.

Lemma obstacle_polar_bearing (particle : Particle) (ob : R * R) :
  fst (obstacle_polar particle ob) = np_round (rad2deg (bearing particle ob)).
Proof. reflexivity. Qed.

Lemma obstacle_polar_range (particle : Particle) (ob : R * R) :
  (-180 <= fst (obstacle_polar particle ob) <= 180)%Z.
Proof.
  rewrite obstacle_polar_bearing. apply np_round_between.
  pose proof (rad2deg_range (bearing particle ob)
                (arctan2_range _ _)) as [Hlo Hhi].
  split; lra.
Qed.

(** The obstacle at range [r] and bearing [a] as seen from the origin with
    heading 0 is filed with exactly that range and bearing. *)
Lemma obstacle_polar_local (r a w : R) :
  0 < r -> - (PI / 2) < a < PI / 2 ->
  obstacle_polar (mkParticle 0 0 0 w) (r * cos a, r * sin a)
  = (np_round (rad2deg a), r).
Proof.
  intros Hr Ha. unfold obstacle_polar. simpl fst. simpl snd. simpl x. simpl y.
  simpl theta. rewrite !Rminus_0_r, Rplus_0_r.
  rewrite (arctan2_polar r a Hr Ha).
  rewrite <- (Rmult_1_l (sin a)), <- (Rmult_1_l (cos a)).
  rewrite (arctan2_polar 1 a ltac:(lra) Ha).
  rewrite !Rmult_1_l, sin_cos_norm by lra. reflexivity.
Qed.


(** ** The expected scan *)

Lemma length_list_set {A : Type} (i : nat) (v : A) (l : list A) :
  length (list_set i v l) = length l.
Proof.
  revert i. induction l as [|a l IH]; intros [|i]; simpl; auto.
Qed.

Lemma nth_list_set_same {A : Type} (i : nat) (v d : A) (l : list A) :
  (i < length l)%nat -> nth i (list_set i v l) d = v.
Proof.
  revert i. induction l as [|a l IH]; intros [|i] Hi; simpl in *; try lia.
  - reflexivity.
  - apply IH. lia.
Qed.

Lemma nth_list_set_other {A : Type} (i j : nat) (v d : A) (l : list A) :
  i <> j -> nth j (list_set i v l) d = nth j l d.
Proof.
  revert i j. induction l as [|a l IH]; intros [|i] [|j] Hij; simpl;
    try reflexivity; try congruence.
  apply IH. congruence.
Qed.

Lemma expected_step_spec (e : list (option R)) (pr : Z * R) :
  (-180 <= fst pr <= 180)%Z -> length e = 360%nat ->
  exists e',
    expected_step e pr = Ok e'
    /\ length e' = 360%nat
    /\ (forall b, b <> position_of pr -> nth b e' None = nth b e None)
    /\ nth (position_of pr) e' None
       = Some match nth (position_of pr) e None with
              | None => clamp_range (snd pr)
              | Some cur =>
                  if Rlt_dec (clamp_range (snd pr)) cur
                  then clamp_range (snd pr) else cur
              end.
Proof.
  intros Hphi Hlen. destruct pr as [phi rho]. simpl fst in *. simpl snd.
  destruct (np_index_wraps phi Hphi) as [Hidx Hlt].
  unfold expected_step. rewrite Hlen, Hidx. simpl bind.
  unfold position_of. simpl fst. fold (clamp_range rho).
  set (i := Z.to_nat (phi mod 360)) in *.
  destruct (nth i e None) as [cur|] eqn:En.
  - destruct (Rlt_dec (clamp_range rho) cur).
    + eexists. split; [reflexivity|]. rewrite length_list_set.
      split; [exact Hlen|]. split.
      * intros b Hb. apply nth_list_set_other. congruence.
      * apply nth_list_set_same. lia.
    + exists e. auto.
  - eexists. split; [reflexivity|]. rewrite length_list_set.
    split; [exact Hlen|]. split.
    + intros b Hb. apply nth_list_set_other. congruence.
    + apply nth_list_set_same. lia.
Qed.

Lemma expected_loop_spec (pairs : list (Z * R)) (e0 : list (option R)) :
  Forall (fun pr => (-180 <= fst pr <= 180)%Z) pairs ->
  length e0 = 360%nat ->
  exists e,
    fold_result expected_step pairs e0 = Ok e
    /\ length e = 360%nat
    /\ forall b,
         ((forall pr, In pr pairs -> position_of pr <> b) ->
          nth b e None = nth b e0 None)
         /\ (forall v, nth b e None = Some v ->
             nth b e0 None = Some v
             \/ exists pr, In pr pairs /\ position_of pr = b
                           /\ v = clamp_range (snd pr))
         /\ (forall pr, In pr pairs -> position_of pr = b ->
             exists v, nth b e None = Some v /\ v <= clamp_range (snd pr))
         /\ (forall v0, nth b e0 None = Some v0 ->
             exists v, nth b e None = Some v /\ v <= v0).
Proof.
  intros Hall. revert e0.
  induction Hall as [|pr rest Hpr _ IH]; intros e0 Hlen.
  - exists e0. split; [reflexivity|]. split; [exact Hlen|].
    intros b. repeat split.
    + intros v Hv. now left.
    + intros pr [].
    + intros v0 Hv0. exists v0. split; [exact Hv0 | lra].
  - destruct (expected_step_spec e0 pr Hpr Hlen) as (e1 & E1 & Hlen1 & Hoth & Hat).
    destruct (IH e1 Hlen1) as (e & E & Hlene & Hb).
    exists e. simpl. rewrite E1. simpl. split; [exact E|].
    split; [exact Hlene|]. intros b.
    destruct (Hb b) as (HA & HB & HC & HD).
    destruct (Nat.eq_dec b (position_of pr)) as [Heq | Hne].
    + (* the bucket written by this step *)
      subst b.
      assert (Hv1 : exists v1,
                 nth (position_of pr) e1 None = Some v1
                 /\ v1 <= clamp_range (snd pr)
                 /\ (v1 = clamp_range (snd pr)
                     \/ nth (position_of pr) e0 None = Some v1)
                 /\ forall v0, nth (position_of pr) e0 None = Some v0 -> v1 <= v0).
      { rewrite Hat. destruct (nth (position_of pr) e0 None) as [cur|].
        - destruct (Rlt_dec (clamp_range (snd pr)) cur).
          + eexists. split; [reflexivity|]. split; [lra|]. split; [now left|].
            intros v0 Hv0. inversion Hv0; subst. lra.
          + eexists. split; [reflexivity|]. split; [lra|]. split; [now right|].
            intros v0 Hv0. inversion Hv0; subst. lra.
        - eexists. split; [reflexivity|]. split; [lra|]. split; [now left|].
          intros v0 Hv0. discriminate. }
      destruct Hv1 as (v1 & Hn1 & Hle1 & Hor1 & Hmin1).
      repeat split.
      * intros Hnone. exfalso. apply (Hnone pr); [now left | reflexivity].
      * intros v Hv. destruct (HB v Hv) as [H1 | (pr' & Hin & Hp & Hv')].
        -- rewrite Hn1 in H1. inversion H1; subst v1.
           destruct Hor1 as [Hc | H0]; [|now left].
           right. exists pr. split; [now left|]. auto.
        -- right. exists pr'. split; [now right|]. auto.
      * intros pr' [Hin | Hin] Hp.
        -- destruct (HD v1 Hn1) as (v & Hv & Hle). exists v. subst pr'.
           split; [exact Hv | lra].
        -- apply HC; assumption.
      * intros v0 Hv0. destruct (HD v1 Hn1) as (v & Hv & Hle).
        exists v. split; [exact Hv|]. specialize (Hmin1 v0 Hv0). lra.
    + rewrite (Hoth b Hne) in *. repeat split.
      * intros Hnone. apply HA. intros pr' Hin. apply Hnone. now right.
      * intros v Hv. destruct (HB v Hv) as [H1 | (pr' & Hin & Hp & Hv')].
        -- now left.
        -- right. exists pr'. split; [now right|]. auto.
      * intros pr' [Hin | Hin] Hp.
        -- subst pr'. congruence.
        -- apply HC; assumption.
      * exact HD.
Qed.

Lemma nth_repeat_none (b n : nat) : nth b (repeat (@None R) n) None = None.
Proof.
  revert b. induction n as [|n IH]; intros [|b]; simpl; auto.
Qed.

Lemma nth_nan_to_zero (b : nat) (e : list (option R)) :
  nth b (map nan_to_zero e) 0 = nan_to_zero (nth b e None).
Proof.
  change 0 with (nan_to_zero None) at 1. apply map_nth.
Qed.

(** What [expected_lidar_of] leaves in each bucket. *)
Lemma expected_lidar_buckets (obs : list (R * R)) (particle : Particle) :
  exists e,
    expected_lidar_of obs particle = Ok e
    /\ length e = 360%nat
    /\ forall b,
         ((forall ob, In ob obs -> bucket_of particle ob <> b) ->
          nth b e 0 = 0)
         /\ (forall ob, In ob obs -> bucket_of particle ob = b ->
             nth b e 0 <= clamp_range (snd (obstacle_polar particle ob)))
         /\ ((exists ob, In ob obs /\ bucket_of particle ob = b) ->
             exists ob, In ob obs /\ bucket_of particle ob = b
                        /\ nth b e 0
                           = clamp_range (snd (obstacle_polar particle ob))).
Proof.
  destruct (expected_loop_spec (map (obstacle_polar particle) obs)
              (repeat None 360)) as (e & E & Hlen & Hb).
  { apply Forall_map. apply Forall_forall. intros ob _.
    apply obstacle_polar_range. }
  { apply repeat_length. }
  exists (map nan_to_zero e). unfold expected_lidar_of. rewrite E. simpl.
  split; [reflexivity|]. split; [rewrite length_map; exact Hlen|].
  intros b. destruct (Hb b) as (HA & HB & HC & _).
  rewrite nth_nan_to_zero. rewrite nth_repeat_none in *.
  assert (Hin : forall ob, In ob obs ->
                  In (obstacle_polar particle ob)
                     (map (obstacle_polar particle) obs))
    by (intros; now apply in_map).
  split; [|split].
  - intros Hnone. rewrite HA; [reflexivity|].
    intros pr Hpr. apply in_map_iff in Hpr. destruct Hpr as (ob & <- & Hob).
    apply (Hnone ob Hob).
  - intros ob Hob Hbk. destruct (HC _ (Hin ob Hob) Hbk) as (v & Hv & Hle).
    rewrite Hv. exact Hle.
  - intros (ob & Hob & Hbk).
    destruct (HC _ (Hin ob Hob) Hbk) as (v & Hv & _).
    destruct (HB v Hv) as [Hbad | (pr & Hpr & Hp & Hval)]; [discriminate|].
    apply in_map_iff in Hpr. destruct Hpr as (ob' & <- & Hob').
    exists ob'. rewrite Hv. auto.
Qed.

(** An obstacle straight ahead of a particle at the origin with heading 0. *)
Lemma obstacle_polar_ahead (r w : R) :
  0 < r -> obstacle_polar (mkParticle 0 0 0 w) (r, 0) = (0%Z, r).
Proof.
  intros Hr. pose proof PI_RGT_0 as HPI.
  replace (r, 0) with (r * cos 0, r * sin 0)
    by (rewrite cos_0, sin_0; f_equal; ring).
  rewrite obstacle_polar_local by (try split; lra). f_equal.
  replace (rad2deg 0) with (IZR 0) by (unfold rad2deg; field; lra).
  apply np_round_IZR.
Qed.

Lemma clamp_range_in (rho : R) : rho <= 3 -> clamp_range rho = rho.
Proof.
  intros Hr. unfold clamp_range. destruct (Rlt_dec 3 rho); [lra | reflexivity].
Qed.

Lemma clamp_range_out (rho : R) : 3 < rho -> clamp_range rho = 0.
Proof.
  intros Hr. unfold clamp_range. destruct (Rlt_dec 3 rho); [reflexivity | lra].
Qed.

(** Obstacles at ranges 2 and 4 in the same bucket: the expected range of
    the bucket is 0. *)
Lemma expected_lidar_two_and_four (w : R) :
  exists e,
    expected_lidar_of [(2, 0); (4, 0)] (mkParticle 0 0 0 w) = Ok e
    /\ nth 0 e 0 = 0.
Proof.
  destruct (expected_lidar_buckets [(2, 0); (4, 0)] (mkParticle 0 0 0 w))
    as (e & E & _ & Hb).
  exists e. split; [exact E|].
  destruct (Hb 0%nat) as (_ & Hle & Hat).
  assert (B4 : bucket_of (mkParticle 0 0 0 w) (4, 0) = 0%nat)
    by (unfold bucket_of; rewrite obstacle_polar_ahead by lra; reflexivity).
  pose proof (Hle (4, 0) ltac:(simpl; auto) B4) as H4.
  rewrite obstacle_polar_ahead in H4 by lra. simpl snd in H4.
  rewrite clamp_range_out in H4 by lra.
  destruct Hat as (ob & Hob & _ & Hval).
  { exists (4, 0). split; [simpl; auto | exact B4]. }
  destruct Hob as [<- | [<- | []]]; rewrite obstacle_polar_ahead in Hval by lra;
    simpl snd in Hval.
  - rewrite clamp_range_in in Hval by lra. lra.
  - rewrite clamp_range_out in Hval by lra. exact Hval.
Qed.

(** C3, the code at the failing input.  A particle at the origin with
    heading 0 and two obstacles straight ahead, at ranges 2.0 and 4.0:
    both are filed in bucket 0.  The range beyond the cutoff is replaced
    by 0 before the minimum is taken (line 271), so the expected range of
    the bucket is 0.0, where the minimum of the in-range obstacles is
    2.0: the far obstacle blanks the near one. *)
Theorem expected_lidar_far_blanks_near :
  obstacle_polar (mkParticle 0 0 0 1) (2, 0) = (0%Z, 2)
  /\ obstacle_polar (mkParticle 0 0 0 1) (4, 0) = (0%Z, 4)
  /\ (exists e,
        expected_lidar_of [(2, 0); (4, 0)] (mkParticle 0 0 0 1) = Ok e
        /\ nth 0 e 0 = 0
        /\ nth 0 e 0 <> spec_expected_range [2; 4])
  /\ spec_expected_range [2; 4] = 2.
Proof.
  assert (Hs : spec_expected_range [2; 4] = 2).
  { unfold spec_expected_range, nearest_in_range.
    destruct (Rlt_dec 3 2); [lra|]. destruct (Rlt_dec 3 4); [|lra].
    reflexivity. }
  split; [apply obstacle_polar_ahead; lra|].
  split; [apply obstacle_polar_ahead; lra|].
  split; [|exact Hs].
  destruct (expected_lidar_two_and_four 1) as (e & E & H0).
  exists e. split; [exact E|]. split; [exact H0|]. rewrite H0, Hs. lra.
Qed.

(** ** The comparison with the scan *)

(** The weight is the sum over the buckets of [contribution], which does
    not look at the sign of the actual reading. *)
Lemma compare_lidar_sum (a e : list R) :
  length a = length e ->
  compare_lidar a e
  = Ok (sum (map (fun ae => contribution (fst ae) (snd ae)) (combine a e))).
Proof.
  intros Hlen. unfold compare_lidar, np_abs_diff.
  rewrite Hlen, Nat.eqb_refl. simpl bind. f_equal. clear Hlen.
  revert e. induction a as [|a0 a IH]; intros [|e0 e]; try reflexivity.
  simpl. unfold Rpos_b at 1. unfold contribution at 1.
  destruct (Rlt_dec 0 (Rabs (a0 - e0))).
  - simpl. rewrite !sum_cons, IH. reflexivity.
  - rewrite sum_cons, IH. lra.
Qed.

Lemma removelast_repeat {A : Type} (a : A) (n : nat) :
  removelast (repeat a (S n)) = repeat a n.
Proof.
  induction n as [|n IH]; [reflexivity|].
  change (repeat a (S (S n))) with (a :: repeat a (S n)).
  change (removelast (a :: repeat a (S n)))
    with (a :: removelast (repeat a (S n))).
  rewrite IH. reflexivity.
Qed.

Lemma sum_combine_repeat (f : R * R -> R) (a b : R) (n : nat) :
  f (a, b) = 0 -> sum (map f (combine (repeat a n) (repeat b n))) = 0.
Proof.
  intros Hf. induction n as [|n IH]; simpl.
  - apply sum_nil.
  - rewrite sum_cons, Hf, IH. lra.
Qed.

Lemma contribution_zero_two : contribution 0 2 = 1 / 8.
Proof.
  unfold contribution. replace (Rabs (0 - 2)) with 2
    by (rewrite Rabs_left; lra).
  destruct (Rlt_dec 0 2); [field | lra].
Qed.

Lemma contribution_same (a : R) : contribution a a = 0.
Proof.
  unfold contribution. replace (a - a) with 0 by ring. rewrite Rabs_R0.
  destruct (Rlt_dec 0 0); [lra | reflexivity].
Qed.

Lemma spec_contribution_nonpositive (a e : R) :
  a <= 0 -> spec_contribution a e = 0.
Proof.
  intros Ha. unfold spec_contribution.
  destruct (Rlt_dec 0 a); [lra | reflexivity].
Qed.

(** One obstacle two units straight ahead: only bucket 0 expects a
    return. *)
Lemma expected_lidar_single (w : R) :
  expected_lidar_of [(2, 0)] (mkParticle 0 0 0 w) = Ok (2 :: repeat 0 359).
Proof.
  unfold expected_lidar_of. simpl map.
  rewrite obstacle_polar_ahead by lra. cbn [fold_result].
  unfold expected_step. rewrite repeat_length.
  change (np_index 360 0) with (@Ok nat 0%nat). cbn [bind].
  rewrite nth_repeat_none.
  destruct (Rlt_dec 3 2); [lra|].
  change (repeat (@None R) 360) with (@None R :: repeat None 359).
  cbn [list_set bind map nan_to_zero]. rewrite map_repeat. reflexivity.
Qed.

(** C1, the code at the failing input.  A particle at the origin with one
    obstacle two units ahead, and a scan that returned nothing (every
    reading 0): bucket 0 has expected range 2 and actual reading 0, and it
    contributes (1/2)^3 to the weight, where the specification's rule
    gives it no contribution and the particle weight 0. *)
Theorem sensor_weight_counts_empty_readings :
  calculate_sensor_weight [(2, 0)] (Some (repeat 0 361)) (mkParticle 0 0 0 1)
  = Ok (1 / 8)
  /\ expected_lidar_of [(2, 0)] (mkParticle 0 0 0 1) = Ok (2 :: repeat 0 359)
  /\ spec_compare_lidar (repeat 0 360) (2 :: repeat 0 359) = 0
  /\ contribution 0 2 = 1 / 8
  /\ spec_contribution 0 2 = 0.
Proof.
  split; [|split; [|split; [|split]]].
  - unfold calculate_sensor_weight.
    rewrite removelast_repeat, expected_lidar_single. cbn [bind].
    rewrite compare_lidar_sum
      by (cbn [length]; rewrite !repeat_length; reflexivity).
    f_equal. change (repeat 0 360) with (0 :: repeat 0 359).
    cbn [combine map fst snd]. rewrite sum_cons, contribution_zero_two.
    rewrite (sum_combine_repeat _ 0 0 359) by apply contribution_same.
    lra.
  - apply expected_lidar_single.
  - unfold spec_compare_lidar. change (repeat 0 360) with (0 :: repeat 0 359).
    cbn [combine map fst snd]. rewrite sum_cons.
    rewrite (sum_combine_repeat _ 0 0 359)
      by (cbn [fst snd]; apply spec_contribution_nonpositive; lra).
    rewrite spec_contribution_nonpositive by lra. lra.
  - apply contribution_zero_two.
  - apply spec_contribution_nonpositive. lra.
Qed.

(** ** The heading *)

Lemma arctan2_zero_one : arctan2 0 1 = 0.
Proof.
  unfold arctan2. destruct (Rlt_dec 0 1); [|lra].
  replace (0 / 1) with 0 by field. apply atan_0.
Qed.

Lemma arctan2_zero_minus_one : arctan2 0 (-1) = PI.
Proof.
  unfold arctan2. destruct (Rlt_dec 0 (-1)); [lra|].
  destruct (Rlt_dec (-1) 0); [|lra]. destruct (Rle_dec 0 0); [|lra].
  replace (0 / -1) with 0 by field. rewrite atan_0. ring.
Qed.

Lemma arctan2_up (r : R) : 0 < r -> arctan2 r 0 = PI / 2.
Proof.
  intros Hr. unfold arctan2. destruct (Rlt_dec 0 0); [lra|].
  destruct (Rlt_dec 0 r); [reflexivity | lra].
Qed.

(** C2, the code at the failing input.  A particle at the origin heading
    along the y axis (theta = PI/2) and an obstacle two units straight
    ahead of it, at (0, 2): the robot-relative bearing of the
    specification is 0 (bucket 0, ahead), while the code adds the heading,
    obtains the bearing PI and files the obstacle in bucket 180, straight
    behind.  The renormalisation into (-PI, PI] is as specified. *)
Theorem bearing_adds_heading :
  (forall particle ob, - PI < bearing particle ob <= PI)
  /\ spec_bearing (mkParticle 0 0 (PI / 2) 1) (0, 2) = 0
  /\ bearing (mkParticle 0 0 (PI / 2) 1) (0, 2) = PI
  /\ obstacle_polar (mkParticle 0 0 (PI / 2) 1) (0, 2) = (180%Z, 2)
  /\ bucket_of (mkParticle 0 0 (PI / 2) 1) (0, 2) = 180%nat
  /\ np_round (rad2deg (spec_bearing (mkParticle 0 0 (PI / 2) 1) (0, 2))) = 0%Z.
Proof.
  pose proof PI_RGT_0 as HPI.
  assert (Es : spec_bearing (mkParticle 0 0 (PI / 2) 1) (0, 2) = 0).
  { unfold spec_bearing. simpl. rewrite !Rminus_0_r.
    rewrite arctan2_up by lra.
    replace (PI / 2 - PI / 2) with 0 by ring.
    rewrite sin_0, cos_0. apply arctan2_zero_one. }
  assert (Eb : bearing (mkParticle 0 0 (PI / 2) 1) (0, 2) = PI).
  { unfold bearing. simpl. rewrite !Rminus_0_r.
    rewrite arctan2_up by lra.
    replace (PI / 2 + PI / 2) with PI by field.
    rewrite sin_PI, cos_PI. apply arctan2_zero_minus_one. }
  assert (Ep : obstacle_polar (mkParticle 0 0 (PI / 2) 1) (0, 2) = (180%Z, 2)).
  { unfold obstacle_polar.
    change (arctan2 (sin (arctan2 (snd (0, 2) - y (mkParticle 0 0 (PI / 2) 1))
                            (fst (0, 2) - x (mkParticle 0 0 (PI / 2) 1))
                          + theta (mkParticle 0 0 (PI / 2) 1)))
                    (cos (arctan2 (snd (0, 2) - y (mkParticle 0 0 (PI / 2) 1))
                            (fst (0, 2) - x (mkParticle 0 0 (PI / 2) 1))
                          + theta (mkParticle 0 0 (PI / 2) 1))))
      with (bearing (mkParticle 0 0 (PI / 2) 1) (0, 2)).
    rewrite Eb. f_equal.
    - replace (rad2deg PI) with (IZR 180) by (unfold rad2deg; field; lra).
      apply np_round_IZR.
    - cbn [fst snd x y]. replace ((0 - 0) ^ 2 + (2 - 0) ^ 2) with (2 ^ 2) by ring.
      apply sqrt_pow2. lra. }
  split; [intros particle ob; apply arctan2_range|].
  split; [exact Es|]. split; [exact Eb|]. split; [exact Ep|].
  split.
  - unfold bucket_of. rewrite Ep. reflexivity.
  - rewrite Es. replace (rad2deg 0) with (IZR 0) by (unfold rad2deg; field; lra).
    apply np_round_IZR.
Qed.

(** ** Invariants of the node through the monad *)

Section Preservation.

Variable H : Helpers.
Variable I : Node H -> Prop.
Hypothesis I_gen : forall g s, I s -> I (set_gen H g s).

Lemma preserves_ret (A : Type) (a : A) : preserves I (@ret H A a).
Proof. intros s Hs. exact Hs. Qed.

Lemma preserves_lift (A : Type) (r : result A) : preserves I (@lift H A r).
Proof. intros s Hs. exact Hs. Qed.

Lemma preserves_get : preserves I (get H).
Proof. intros s Hs. exact Hs. Qed.

Lemma preserves_modify (f : Node H -> Node H) :
  (forall s, I s -> I (f s)) -> preserves I (modify H f).
Proof. intros Hf s Hs. apply Hf. exact Hs. Qed.

Lemma preserves_draw (f : rng H -> R * rng H) : preserves I (draw f).
Proof. intros s Hs. rewrite draw_eq. apply I_gen. exact Hs. Qed.

Lemma preserves_bind (A B : Type) (m : M H A) (k : A -> M H B) :
  preserves I m -> (forall a, preserves I (k a)) -> preserves I (mbind m k).
Proof.
  intros Hm Hk s Hs. unfold mbind. specialize (Hm s Hs).
  destruct (m s) as [s1 [a | e]]; simpl in *.
  - apply Hk. exact Hm.
  - exact Hm.
Qed.

Lemma preserves_repeat (A : Type) (m : M H A) (k : nat) :
  preserves I m -> preserves I (repeat_M k m).
Proof.
  intros Hm. induction k as [|k IH]; simpl.
  - apply preserves_ret.
  - apply preserves_bind; [exact Hm|]. intros a.
    apply preserves_bind; [exact IH|]. intros l. apply preserves_ret.
Qed.

Lemma preserves_map (A B : Type) (f : A -> M H B) (l : list A) :
  (forall a, preserves I (f a)) -> preserves I (map_M f l).
Proof.
  intros Hf. induction l as [|a l IH]; simpl.
  - apply preserves_ret.
  - apply preserves_bind; [apply Hf|]. intros b.
    apply preserves_bind; [exact IH|]. intros bs. apply preserves_ret.
Qed.

Lemma preserves_choices (A : Type) (population : list A) (weights : list R)
    (k : nat) :
  preserves I (@choices H A population weights k).
Proof.
  unfold choices.
  destruct (negb _); [apply preserves_lift|].
  destruct (rev (accumulate weights)) as [|total front]; [apply preserves_lift|].
  destruct (Rle_dec total 0); [apply preserves_lift|].
  apply preserves_repeat. apply preserves_bind; [apply preserves_draw|].
  intros u. destruct (nth_error _ _); [apply preserves_ret | apply preserves_lift].
Qed.

Lemma preserves_sample_particles (ps : list Particle)
    (xy_sigma xy_noise theta_sigma theta_noise : R) (k : nat) :
  preserves I
    (@sample_particles H ps xy_sigma xy_noise theta_sigma theta_noise k).
Proof.
  unfold sample_particles.
  apply preserves_bind; [apply preserves_choices|]. intros chosen.
  apply preserves_map. intros c.
  repeat (apply preserves_bind; [apply preserves_draw|]; intros ?).
  apply preserves_ret.
Qed.

Lemma preserves_apply_motion (ps : list Particle) (delta_pose : PoseTuple)
    (sigma : R) :
  preserves I (@apply_motion H ps delta_pose sigma).
Proof.
  unfold apply_motion.
  repeat (apply preserves_bind; [apply preserves_draw|]; intros ?).
  apply preserves_ret.
Qed.

Hypothesis I_last_update : forall v s, I s -> I (set_last_update H v s).
Hypothesis I_particles :
  forall ps s, I s -> I (set_particles_field H (Some ps) s).
Hypothesis I_robot_pose : forall v s, I s -> I (set_robot_pose H v s).
Hypothesis I_update_count : forall v s, I s -> I (set_update_count H v s).

Lemma preserves_set_particles (stamp : Z) (ps : list Particle) :
  preserves I (@set_particles H stamp ps).
Proof.
  unfold set_particles.
  apply preserves_bind; [apply preserves_modify; apply I_last_update|].
  intros _.
  apply preserves_bind; [apply preserves_lift|]. intros normalized.
  apply preserves_bind; [apply preserves_modify; apply I_particles|].
  intros _.
  apply preserves_bind; [apply preserves_lift|]. intros est.
  apply preserves_bind; [apply preserves_modify; apply I_robot_pose|].
  intros _.
  apply preserves_bind; [apply preserves_repeat; apply preserves_draw|].
  intros _.
  apply preserves_bind; [apply preserves_get|]. intros s0.
  apply preserves_modify. apply I_update_count.
Qed.

Lemma preserves_update_initial_pose (stamp : Z) (pose : PoseTuple) :
  preserves I (@update_initial_pose H stamp pose).
Proof.
  unfold update_initial_pose.
  apply preserves_bind; [apply preserves_sample_particles|]. intros ps.
  apply preserves_set_particles.
Qed.

End Preservation.

Lemma mbind_step (H : Helpers) (A B : Type) (m : M H A) (k : A -> M H B)
    (s s1 : Node H) (a : A) :
  m s = (s1, Ok a) -> mbind m k s = k a s1.
Proof. intros E. unfold mbind. rewrite E. reflexivity. Qed.

(** ** update *)

Lemma commit_sets_last_pose (H : Helpers) (msg : Odometry)
    (ps : list Particle) (s : Node H) :
  last_pose (fst (commit msg ps s)) = Some (odom_pose msg).
Proof.
  unfold commit. erewrite mbind_step by reflexivity.
  apply (preserves_bind H (fun n => last_pose n = Some (odom_pose msg))).
  - apply preserves_set_particles; auto.
  - intros _. apply preserves_modify. auto.
  - reflexivity.
Qed.

Lemma commit_keeps_particles (H : Helpers) (msg : Odometry)
    (ps : list Particle) :
  preserves (fun n : Node H => particles n <> None) (commit msg ps).
Proof.
  unfold commit.
  apply preserves_bind; [apply preserves_modify; auto|]. intros _.
  apply preserves_bind.
  - apply preserves_set_particles; auto. intros; simpl; discriminate.
  - intros _. apply preserves_modify. auto.
Qed.

(** Resampling, moving and weighing write nothing but the generator. *)
Lemma preserves_predict_and_weigh (H : Helpers) (I : Node H -> Prop)
    (ps : list Particle) (delta_pose : PoseTuple) :
  (forall g s, I s -> I (set_gen H g s)) ->
  preserves I (predict_and_weigh ps delta_pose).
Proof.
  intros I_gen. unfold predict_and_weigh.
  apply preserves_bind; [apply preserves_sample_particles; auto|]. intros ps1.
  apply preserves_bind; [apply preserves_apply_motion; auto|]. intros ps2.
  apply preserves_bind; [apply preserves_get|]. intros s0.
  apply preserves_lift.
Qed.

Lemma initial_pose_keeps_last_pose (H : Helpers) (stamp : Z) (pose p : PoseTuple) :
  preserves (fun n : Node H => last_pose n = Some p)
            (update_initial_pose stamp pose).
Proof. apply preserves_update_initial_pose; auto. Qed.

Lemma initial_pose_keeps_particles (H : Helpers) (stamp : Z) (pose : PoseTuple) :
  preserves (fun n : Node H => particles n <> None)
            (update_initial_pose stamp pose).
Proof.
  apply preserves_update_initial_pose; auto. intros; simpl; discriminate.
Qed.

Lemma below_motion_threshold_true (d : PoseTuple) :
  below_motion_threshold d = true
  <-> sqrt (pose_x d ^ 2 + pose_y d ^ 2) < 1 / 100 /\ pose_theta d < 5 / 100.
Proof.
  unfold below_motion_threshold.
  destruct (Rlt_dec (sqrt (pose_x d ^ 2 + pose_y d ^ 2)) (1 / 100));
    destruct (Rlt_dec (pose_theta d) (5 / 100)); simpl; split;
    intros; try discriminate; try tauto.
Qed.

(** What each way of leaving [update] means for the node. *)
Lemma update_cases (H : Helpers) (msg : Odometry) (s : Node H) :
  match snd (update msg s) with
  | Dropped => fst (update msg s) = s
  | Recorded =>
      (last_pose s = None \/ particles s = None)
      /\ last_pose (fst (update msg s)) = Some (odom_pose msg)
      /\ particles (fst (update msg s)) = particles s
  | Skipped =>
      fst (update msg s) = s
      /\ exists last, last_pose s = Some last
           /\ below_motion_threshold (delta_of H last (odom_pose msg)) = true
  | Processed d =>
      last_pose (fst (update msg s)) = Some (odom_pose msg)
      /\ particles (fst (update msg s)) <> None
      /\ exists last, last_pose s = Some last
           /\ d = delta_of H last (odom_pose msg)
           /\ below_motion_threshold d = false
  | Failed e =>
      last_pose (fst (update msg s)) = last_pose s
      /\ particles (fst (update msg s)) = particles s
  | Aborted e =>
      last_pose (fst (update msg s)) = Some (odom_pose msg)
      /\ (particles s <> None -> particles (fst (update msg s)) <> None)
  end.
Proof.
  unfold update.
  destruct (is_updating s) eqn:Eu; [reflexivity|]. cbn [orb].
  destruct (odom_stamp msg <? last_update_real s)%Z; [reflexivity|].
  unfold update_body. cbn [last_pose particles set_is_updating].
  assert (Hs : set_is_updating H false s = s)
    by (destruct s; simpl in *; subst; reflexivity).
  destruct (last_pose s) as [last|] eqn:El.
  - destruct (particles s) as [ps|] eqn:Ep.
    + destruct (below_motion_threshold (delta_of H last (odom_pose msg))) eqn:Eb.
      * cbn [fst snd]. split; [exact Hs|]. exists last. auto.
      * pose proof (preserves_predict_and_weigh H
                      (fun n => last_pose n = Some last) ps
                      (delta_of H last (odom_pose msg)) ltac:(auto)
                      (set_is_updating H true s) El) as Hkl.
        pose proof (preserves_predict_and_weigh H
                      (fun n => particles n = Some ps) ps
                      (delta_of H last (odom_pose msg)) ltac:(auto)
                      (set_is_updating H true s) Ep) as Hkp.
        destruct (predict_and_weigh ps (delta_of H last (odom_pose msg))
                    (set_is_updating H true s)) as [s1 [ps3 | e]] eqn:Ew;
          cbn [fst] in Hkl, Hkp.
        -- pose proof (commit_sets_last_pose H msg ps3 s1) as Hcl.
           pose proof (commit_keeps_particles H msg ps3 s1
                         ltac:(cbv beta; rewrite Hkp; discriminate)) as Hcp.
           destruct (commit msg ps3 s1) as [s' [u | e]] eqn:Ec;
             cbn [fst snd] in *.
           ++ split; [exact Hcl|]. split; [exact Hcp|]. exists last. auto.
           ++ split; [exact Hcl|]. intros _. exact Hcp.
        -- cbn [fst snd]. split; [exact Hkl | exact Hkp].
    + cbn [fst snd]. split; [now right|]. split; [reflexivity|].
      cbn. exact Ep.
  - cbn [fst snd]. split; [now left|]. split; [reflexivity|]. reflexivity.
Qed.

Lemma sum_all_one (l : list R) :
  Forall (fun w => w = 1) l -> sum l = INR (length l).
Proof.
  induction 1 as [|w l Hw _ IH].
  - rewrite sum_nil. reflexivity.
  - rewrite sum_cons, Hw, IH. cbn [length]. rewrite S_INR. lra.
Qed.

(** Without a scan every particle is weighted 1. *)
Lemma reweigh_without_scan (obs : list (R * R)) (ps : list Particle) :
  map_result (fun p => w <- calculate_sensor_weight obs None p ;;
                       Ok (mkParticle (x p) (y p) (theta p) w)) ps
  = Ok (map (fun p => mkParticle (x p) (y p) (theta p) 1) ps).
Proof. apply map_result_total. reflexivity. Qed.

(** On a node that has no scan, a particle set of positive total weight is
    resampled and weighed without exception: [NUM_PARTICLES] particles of
    weight 1. *)
Lemma predict_and_weigh_runs (H : Helpers) (ps : list Particle)
    (delta_pose : PoseTuple) (s : Node H) :
  last_lidar s = None -> 0 < sum (map weight ps) ->
  exists g ps3,
    predict_and_weigh ps delta_pose s = (set_gen H g s, Ok ps3)
    /\ length ps3 = NUM_PARTICLES
    /\ Forall (fun p => weight p = 1) ps3.
Proof.
  intros Hl Hpos. unfold predict_and_weigh.
  destruct (sample_particles_positive H ps INITIAL_STATE_XY_SIGMA
              INITIAL_STATE_XY_NOISE INITIAL_STATE_THETA_SIGMA
              INITIAL_STATE_THETA_NOISE NUM_PARTICLES Hpos s)
    as (g1 & ps1 & E1 & Hlen1 & Hw1).
  erewrite mbind_step by exact E1.
  destruct (apply_motion_weights H ps1 delta_pose (15 / 100) (set_gen H g1 s))
    as (g2 & ps2 & E2 & Hw2).
  erewrite mbind_step by exact E2.
  erewrite mbind_step by reflexivity.
  cbn [last_lidar map_obstacles set_gen]. rewrite Hl.
  rewrite reweigh_without_scan.
  exists g2. eexists. split; [reflexivity|]. split.
  - rewrite length_map, <- Hlen1.
    rewrite <- (length_map weight ps2), Hw2. apply length_map.
  - apply Forall_map. apply Forall_forall. reflexivity.
Qed.

(** Particles of weight 1 are committed without exception, as a normalized
    set. *)
Lemma commit_runs (H : Helpers) (msg : Odometry) (ps3 : list Particle)
    (s : Node H) :
  length ps3 = NUM_PARTICLES -> Forall (fun p => weight p = 1) ps3 ->
  exists s' ps',
    commit msg ps3 s = (s', Ok tt)
    /\ particles s' = Some ps'
    /\ sum (map weight ps') = 1
    /\ length ps' = NUM_PARTICLES
    /\ last_lidar s' = last_lidar s
    /\ is_updating s' = is_updating s
    /\ last_update_real s' = odom_now msg.
Proof.
  intros Hlen3 Hw3. unfold commit.
  erewrite mbind_step by reflexivity.
  assert (Hsum : sum (map weight ps3) = INR NUM_PARTICLES).
  { rewrite sum_all_one.
    - rewrite length_map, Hlen3. reflexivity.
    - apply Forall_map. exact Hw3. }
  assert (Hnz : sum (map weight ps3) <> 0).
  { rewrite Hsum. apply not_0_INR. discriminate. }
  destruct (set_particles_nonzero H (odom_stamp msg) ps3
              (set_last_pose H (Some (odom_pose msg)) s) Hnz) as [g3 E3].
  eexists. exists (map (rescale (sum (map weight ps3))) ps3).
  split; [erewrite mbind_step by exact E3; reflexivity|].
  split; [reflexivity|].
  split; [rewrite sum_weight_rescale; field; exact Hnz|].
  split; [rewrite length_map; exact Hlen3|].
  split; [reflexivity|]. split; reflexivity.
Qed.

(** Under the same conditions [update] processes the message. *)
Lemma update_processes (H : Helpers) (msg : Odometry) (s : Node H)
    (last : PoseTuple) (ps : list Particle) :
  is_updating s = false ->
  (last_update_real s <= odom_stamp msg)%Z ->
  last_pose s = Some last -> particles s = Some ps ->
  0 < sum (map weight ps) -> last_lidar s = None ->
  below_motion_threshold (delta_of H last (odom_pose msg)) = false ->
  snd (update msg s) = Processed (delta_of H last (odom_pose msg))
  /\ is_updating (fst (update msg s)) = false
  /\ last_update_real (fst (update msg s)) = odom_now msg
  /\ last_lidar (fst (update msg s)) = None
  /\ exists ps', particles (fst (update msg s)) = Some ps'
                 /\ sum (map weight ps') = 1.
Proof.
  intros Hu Hst Hlast Hps Hpos Hl Hb. unfold update. rewrite Hu. cbn [orb].
  destruct (Z.ltb_spec (odom_stamp msg) (last_update_real s)) as [? | _]; [lia|].
  unfold update_body. cbn [last_pose particles set_is_updating].
  rewrite Hlast, Hps, Hb.
  destruct (predict_and_weigh_runs H ps (delta_of H last (odom_pose msg))
              (set_is_updating H true s) Hl Hpos)
    as (g & ps3 & Ew & Hlen3 & Hw3).
  rewrite Ew.
  destruct (commit_runs H msg ps3 (set_gen H g (set_is_updating H true s))
              Hlen3 Hw3)
    as (s' & ps' & E & Hp' & Hsum & _ & Hl' & _ & Hr').
  rewrite E. cbn [fst snd]. split; [reflexivity|].
  split; [reflexivity|]. split; [exact Hr'|].
  split; [cbn [last_lidar set_is_updating]; rewrite Hl'; exact Hl|].
  exists ps'. split; [exact Hp' | exact Hsum].
Qed.

Lemma update_skips (H : Helpers) (msg : Odometry) (s : Node H)
    (last : PoseTuple) (ps : list Particle) :
  is_updating s = false ->
  (last_update_real s <= odom_stamp msg)%Z ->
  last_pose s = Some last -> particles s = Some ps ->
  below_motion_threshold (delta_of H last (odom_pose msg)) = true ->
  update msg s = (s, Skipped).
Proof.
  intros Hu Hst Hlast Hps Hb. unfold update. rewrite Hu. cbn [orb].
  destruct (Z.ltb_spec (odom_stamp msg) (last_update_real s)) as [? | _]; [lia|].
  unfold update_body. cbn [last_pose particles set_is_updating].
  rewrite Hlast, Hps, Hb. f_equal.
  destruct s; simpl in *; subst; reflexivity.
Qed.

Lemma sqrt_along_x (dx : R) : sqrt (dx ^ 2 + 0 ^ 2) = Rabs dx.
Proof.
  replace (dx ^ 2 + 0 ^ 2) with (Rsqr dx) by (unfold Rsqr; ring).
  apply sqrt_Rsqr_abs.
Qed.

(** C5, the code at the failing input.  The node holds particles and the
    last pose (0, 0, 0); the odometry pose (0, 0, 1) gives the delta
    (0, 0, -1): no translation and a rotation of one radian, far above the
    0.05 threshold in absolute value.  Line 184 compares the signed angle,
    so the cycle is skipped and the node is left as it was. *)
Theorem update_skips_negative_rotation :
  delta_of still_helpers (mkPoseTuple 0 0 0) (mkPoseTuple 0 0 1)
  = mkPoseTuple (0 - 0) (0 - 0) (0 - 1)
  /\ 5 / 100 < Rabs (0 - 1)
  /\ below_motion_threshold (mkPoseTuple (0 - 0) (0 - 0) (0 - 1)) = true
  /\ update (mkOdometry 1 (mkPoseTuple 0 0 1) 2) settled_node
     = (settled_node, Skipped).
Proof.
  assert (Hb : below_motion_threshold (mkPoseTuple (0 - 0) (0 - 0) (0 - 1))
               = true).
  { apply below_motion_threshold_true. cbn [pose_x pose_y pose_theta].
    replace (0 - 0) with 0 by ring. rewrite sqrt_along_x, Rabs_R0. lra. }
  split; [reflexivity|].
  split; [rewrite Rabs_left; lra|].
  split; [exact Hb|].
  apply (update_skips still_helpers _ settled_node (mkPoseTuple 0 0 0)
           [mkParticle 0 0 0 1]); try reflexivity.
  - cbn. lia.
  - exact Hb.
Qed.

(** ** Runs of the node *)

Lemma run_invariant (H : Helpers) (evs : list event) (s : Node H)
    (acc : option PoseTuple) (p : PoseTuple) :
  (forall q, acc = Some q -> last_pose s = Some q /\ particles s <> None) ->
  no_abort evs s ->
  last_processed evs s acc = Some p ->
  last_pose (run evs s) = Some p /\ particles (run evs s) <> None.
Proof.
  revert s acc. induction evs as [|e evs IH]; intros s acc Hacc Hnf Hlp.
  - simpl in *. apply Hacc. exact Hlp.
  - cbn [run]. cbn [last_processed] in Hlp. destruct Hnf as [Hnf1 Hnf].
    eapply IH; [|exact Hnf|exact Hlp].
    intros q Hq. destruct e as [stamp pose | msg | ranges].
    + (* initial pose *)
      cbn [outcome_of dispatch] in *. destruct (Hacc q Hq) as [Hl Hp].
      split.
      * apply (initial_pose_keeps_last_pose H stamp pose q s Hl).
      * apply (initial_pose_keeps_particles H stamp pose s Hp).
    + (* odometry *)
      cbn [outcome_of dispatch] in *.
      pose proof (update_cases H msg s) as Hc.
      destruct (snd (update msg s)) as [ | | |d|ex|ex] eqn:Eo.
      * rewrite Hc. apply Hacc. exact Hq.
      * destruct Hc as ([Hn | Hn] & _).
        -- destruct (Hacc q Hq) as [Hl _]. congruence.
        -- destruct (Hacc q Hq) as [_ Hp]. congruence.
      * destruct Hc as (Hs & _). rewrite Hs. apply Hacc. exact Hq.
      * destruct Hc as (Hl & Hp & _). inversion Hq; subst q. auto.
      * destruct Hc as (Hl & Hp). rewrite Hl, Hp. apply Hacc. exact Hq.
      * exfalso. apply (Hnf1 ex). reflexivity.
    + (* scan *)
      cbn [outcome_of dispatch] in *. apply Hacc. exact Hq.
Qed.


Lemma not_below_one_metre :
  below_motion_threshold
    (delta_of still_helpers (mkPoseTuple 0 0 0) (mkPoseTuple 1 0 0)) = false.
Proof.
  destruct (below_motion_threshold _) eqn:E; [|reflexivity].
  apply below_motion_threshold_true in E. destruct E as [E _].
  cbn in E. replace (0 - 0) with 0 in E by ring.
  replace (0 * (0 * 1)) with (0 ^ 2) in E by ring.
  replace ((0 - 1) * ((0 - 1) * 1)) with ((0 - 1) ^ 2) in E by ring.
  rewrite sqrt_along_x, Rabs_left in E; lra.
Qed.

Lemma below_one_millimetre :
  below_motion_threshold
    (delta_of still_helpers (mkPoseTuple 1 0 0)
       (mkPoseTuple (1 + 1 / 1000) 0 0)) = true.
Proof.
  apply below_motion_threshold_true. cbn.
  replace (0 - 0) with 0 by ring.
  replace ((1 - (1 + 1 / 1000)) * ((1 - (1 + 1 / 1000)) * 1) + 0 * (0 * 1))
    with ((- (1 / 1000)) ^ 2 + 0 ^ 2) by ring.
  rewrite sqrt_along_x, Rabs_left; lra.
Qed.


(** * Further properties of the node *)

(** ** preprocess_map *)

Lemma list_set_app_length {A : Type} (l1 l2 : list A) (a v : A) :
  list_set (length l1) v (l1 ++ a :: l2) = l1 ++ v :: l2.
Proof.
  induction l1 as [|b l1 IH]; simpl; [reflexivity | now rewrite IH].
Qed.

Lemma fold_result_app {A S : Type} (f : S -> A -> result S) (l1 l2 : list A)
    (s : S) :
  fold_result f (l1 ++ l2) s = s' <- fold_result f l1 s ;; fold_result f l2 s'.
Proof.
  revert s. induction l1 as [|a l1 IH]; intros s; simpl; [reflexivity|].
  destruct (f s a) as [s1 | e]; simpl; [apply IH | reflexivity].
Qed.

(** A loop one of whose iterations raises in every state raises, when the
    body knows one exception only. *)
Lemma fold_result_raises {A S : Type} (f : S -> A -> result S) (ex : exn)
    (l : list A) (a0 : A) :
  (forall s a e, f s a = Raise e -> e = ex) ->
  In a0 l -> (forall s, f s a0 = Raise ex) ->
  forall s, fold_result f l s = Raise ex.
Proof.
  intros Hex Hin Hbad. induction l as [|a l IH]; intros s; [contradiction|].
  simpl. destruct (f s a) as [s1 | e] eqn:E.
  - simpl. destruct Hin as [-> | Hin]; [rewrite Hbad in E; discriminate|].
    now apply IH.
  - simpl. now rewrite (Hex _ _ _ E).
Qed.

Lemma fold_result_exn {A S : Type} (f : S -> A -> result S) (ex : exn)
    (l : list A) :
  (forall s a e, f s a = Raise e -> e = ex) ->
  forall s e, fold_result f l s = Raise e -> e = ex.
Proof.
  intros Hex. induction l as [|a l IH]; intros s e; simpl; [discriminate|].
  destruct (f s a) as [s1 | e1] eqn:E; simpl.
  - apply IH.
  - intros E'. inversion E'; subst. now apply (Hex _ _ _ E).
Qed.

Lemma map_cell_exn (m : OccupancyGrid) (x0 y0 : nat)
    (st : list (R * R) * nat) (e : exn) :
  map_cell m x0 st y0 = Raise e -> e = IndexError.
Proof.
  unfold map_cell. destruct (nth_error _ _) as [v|]; [|congruence].
  destruct (occupied_b v); [|discriminate].
  destruct (Nat.ltb _ _); [discriminate | congruence].
Qed.

Section Column.

Variable m : OccupancyGrid.

Lemma inner_loop_spec (x0 : nat) (ys : list nat) (written : list (R * R))
    (k : nat) :
  (forall y0, In y0 ys -> (x0 + y0 * width m < length (data m))%nat) ->
  (length (flat_map (grid_cell m x0) ys) <= k)%nat ->
  fold_result (map_cell m x0) ys
    (written ++ repeat (0, 0) k, length written)
  = Ok (written ++ flat_map (grid_cell m x0) ys
          ++ repeat (0, 0) (k - length (flat_map (grid_cell m x0) ys)),
        (length written + length (flat_map (grid_cell m x0) ys))%nat).
Proof.
  revert written k. induction ys as [|y0 ys IH]; intros written k Hin Hk.
  - simpl. rewrite Nat.sub_0_r, Nat.add_0_r. reflexivity.
  - cbn [fold_result flat_map]. unfold map_cell at 1.
    assert (Hy : (x0 + y0 * width m < length (data m))%nat)
      by (apply Hin; now left).
    rewrite (nth_error_nth' (data m) 0%Z Hy). cbn [fst snd].
    cbn [flat_map] in Hk. rewrite length_app in Hk.
    assert (Hc : grid_cell m x0 y0
                 = if occupied_b (nth (x0 + y0 * width m) (data m) 0%Z)
                   then [cell_coordinate m x0 y0] else [])
      by reflexivity.
    destruct (occupied_b (nth (x0 + y0 * width m) (data m) 0%Z));
      rewrite Hc in *; cbn [length] in Hk.
    + destruct k as [|k]; [lia|].
      rewrite length_app, repeat_length.
      destruct (Nat.ltb_spec (length written) (length written + S k));
        [|lia].
      cbn [bind repeat]. rewrite list_set_app_length.
      replace (written ++ cell_coordinate m x0 y0 :: repeat (0, 0) k)
        with ((written ++ [cell_coordinate m x0 y0]) ++ repeat (0, 0) k)
        by (rewrite <- app_assoc; reflexivity).
      replace (S (length written))
        with (length (written ++ [cell_coordinate m x0 y0]))
        by (rewrite length_app; simpl; lia).
      rewrite IH by (try (intros; apply Hin; now right); lia).
      rewrite !length_app. cbn [length app]. rewrite <- !app_assoc.
      cbn [app].
      replace (S k - (1 + length (flat_map (grid_cell m x0) ys)))%nat
        with (k - length (flat_map (grid_cell m x0) ys))%nat by lia.
      rewrite Nat.add_assoc. reflexivity.
    + cbn [bind app length].
      rewrite IH by (try (intros; apply Hin; now right); lia).
      reflexivity.
Qed.

Lemma outer_loop_spec (xs : list nat) (written : list (R * R)) (k : nat) :
  (forall x0 y0, In x0 xs -> In y0 (seq 0 (height m)) ->
                 (x0 + y0 * width m < length (data m))%nat) ->
  (length (flat_map (fun x0 => flat_map (grid_cell m x0) (seq 0 (height m))) xs)
   <= k)%nat ->
  fold_result
    (fun st x0 => fold_result (map_cell m x0) (seq 0 (height m)) st) xs
    (written ++ repeat (0, 0) k, length written)
  = Ok (written
          ++ flat_map (fun x0 => flat_map (grid_cell m x0) (seq 0 (height m))) xs
          ++ repeat (0, 0)
               (k - length (flat_map
                              (fun x0 => flat_map (grid_cell m x0) (seq 0 (height m)))
                              xs)),
        (length written
         + length (flat_map (fun x0 => flat_map (grid_cell m x0) (seq 0 (height m)))
                     xs))%nat).
Proof.
  revert written k. induction xs as [|x0 xs IH]; intros written k Hin Hk.
  - simpl. rewrite Nat.sub_0_r, Nat.add_0_r. reflexivity.
  - cbn [fold_result flat_map]. cbn [flat_map] in Hk.
    rewrite length_app in Hk.
    rewrite inner_loop_spec
      by (try (intros; apply Hin; [now left | assumption]); lia).
    cbn [bind]. rewrite app_assoc.
    replace (length written
             + length (flat_map (grid_cell m x0) (seq 0 (height m))))%nat
      with (length (written ++ flat_map (grid_cell m x0) (seq 0 (height m))))
      by apply length_app.
    rewrite IH by (try (intros; apply Hin; [now right | assumption]); lia).
    rewrite !length_app, <- !app_assoc.
    rewrite Nat.sub_add_distr, Nat.add_assoc. reflexivity.
Qed.

End Column.

Lemma list_sum_map_add {A : Type} (f g : A -> nat) (l : list A) :
  list_sum (map (fun a => (f a + g a)%nat) l)
  = (list_sum (map f l) + list_sum (map g l))%nat.
Proof.
  induction l as [|a l IH]; simpl; [reflexivity | rewrite IH; lia].
Qed.

Lemma map_seq_shift {B : Type} (h : nat -> B) (a c len : nat) :
  map (fun i => h (a + i)%nat) (seq c len) = map h (seq (a + c) len).
Proof.
  revert c. induction len as [|len IH]; intros c; simpl; [reflexivity|].
  rewrite IH. replace (a + S c)%nat with (S (a + c)) by lia. reflexivity.
Qed.

Lemma firstn_snoc {A : Type} (d : A) (n : nat) (l : list A) :
  (n < length l)%nat -> firstn (S n) l = firstn n l ++ [nth n l d].
Proof.
  revert n. induction l as [|a l IH]; intros n Hn; simpl in Hn; [lia|].
  destruct n as [|n]; [reflexivity|].
  change (firstn (S (S n)) (a :: l)) with (a :: firstn (S n) l).
  rewrite IH by lia. reflexivity.
Qed.

Lemma count_firstn {A : Type} (p : A -> bool) (d : A) (n : nat) (l : list A) :
  (n <= length l)%nat ->
  length (filter p (firstn n l))
  = list_sum (map (fun i => if p (nth i l d) then 1 else 0)%nat (seq 0 n)).
Proof.
  induction n as [|n IH]; intros Hn; [reflexivity|].
  rewrite (firstn_snoc d) by lia.
  rewrite filter_app, length_app, seq_S, map_app, list_sum_app, IH by lia.
  simpl. destruct (p (nth n l d)); reflexivity.
Qed.

Lemma length_grid_cell (m : OccupancyGrid) (x0 y0 : nat) :
  length (grid_cell m x0 y0)
  = if occupied_b (nth (x0 + y0 * width m) (data m) 0%Z) then 1%nat else 0%nat.
Proof.
  unfold grid_cell. destruct (occupied_b _); reflexivity.
Qed.

(** Visiting the cells column by column counts the same entries as reading
    [data] from its start. *)
Lemma count_by_columns (m : OccupancyGrid) (h : nat) :
  length (flat_map (fun x0 => flat_map (grid_cell m x0) (seq 0 h))
                   (seq 0 (width m)))
  = list_sum (map (fun i => if occupied_b (nth i (data m) 0%Z)
                            then 1 else 0)%nat
                  (seq 0 (width m * h))).
Proof.
  induction h as [|h IH].
  - rewrite Nat.mul_0_r, length_flat_map. simpl seq at 1.
    induction (seq 0 (width m)); simpl; auto.
  - rewrite length_flat_map.
    rewrite (map_ext _
               (fun x0 => (length (flat_map (grid_cell m x0) (seq 0 h))
                           + (if occupied_b
                                   (nth (h * width m + x0) (data m) 0%Z)
                              then 1 else 0))%nat)).
    2:{ intros x0. rewrite seq_S, flat_map_app, length_app. simpl flat_map.
        rewrite app_nil_r, length_grid_cell.
        replace (x0 + h * width m)%nat with (h * width m + x0)%nat by lia.
        reflexivity. }
    rewrite list_sum_map_add, <- length_flat_map, IH.
    rewrite (map_seq_shift
               (fun i => if occupied_b (nth i (data m) 0%Z) then 1 else 0)%nat
               (h * width m) 0 (width m)).
    replace (width m * S h)%nat with (width m * h + width m)%nat by lia.
    rewrite seq_app, map_app, list_sum_app.
    replace (h * width m + 0)%nat with (0 + width m * h)%nat by lia.
    reflexivity.
Qed.

Lemma occupied_count (m : OccupancyGrid) :
  (width m * height m <= length (data m))%nat ->
  (length (occupied_cells m)
   + length (filter occupied_b (skipn (width m * height m) (data m))))%nat
  = length (filter occupied_b (data m)).
Proof.
  intros Hle. unfold occupied_cells.
  rewrite count_by_columns, <- (count_firstn occupied_b 0%Z) by exact Hle.
  rewrite <- length_app, <- filter_app, firstn_skipn. reflexivity.
Qed.

Lemma cell_in_grid (w h x0 y0 : nat) :
  (x0 < w)%nat -> (y0 < h)%nat -> (x0 + y0 * w < w * h)%nat.
Proof. intros Hx Hy. nia. Qed.

(** The loops of [preprocess_map] on a grid whose data covers every cell. *)
Lemma preprocess_map_covered (m : OccupancyGrid) :
  (width m * height m <= length (data m))%nat ->
  preprocess_map m
  = Ok (occupied_cells m
          ++ repeat (0, 0)
               (length (filter occupied_b
                          (skipn (width m * height m) (data m))))).
Proof.
  intros Hle. unfold preprocess_map.
  pose proof (occupied_count m Hle) as Hc.
  pose proof (outer_loop_spec m (seq 0 (width m)) []
                (length (filter occupied_b (data m)))) as Hloop.
  cbn [app length] in Hloop. rewrite Hloop.
  - cbn [bind fst]. fold (occupied_cells m).
    replace (length (filter occupied_b (data m)) - length (occupied_cells m))%nat
      with (length (filter occupied_b (skipn (width m * height m) (data m))))
      by lia.
    reflexivity.
  - intros x0 y0 Hx Hy. apply in_seq in Hx. apply in_seq in Hy.
    pose proof (cell_in_grid (width m) (height m) x0 y0 ltac:(lia) ltac:(lia)).
    lia.
  - fold (occupied_cells m). lia.
Qed.

Lemma in_occupied_cells (m : OccupancyGrid) (c : R * R) :
  In c (occupied_cells m)
  <-> exists x0 y0,
        (x0 < width m)%nat /\ (y0 < height m)%nat
        /\ (0 < nth (x0 + y0 * width m) (data m) 0)%Z
        /\ c = cell_coordinate m x0 y0.
Proof.
  unfold occupied_cells. rewrite in_flat_map. split.
  - intros (x0 & Hx & Hin). apply in_flat_map in Hin.
    destruct Hin as (y0 & Hy & Hc). apply in_seq in Hx. apply in_seq in Hy.
    unfold grid_cell, occupied_b in Hc.
    destruct (Z.ltb_spec 0 (nth (x0 + y0 * width m) (data m) 0%Z)) as [Hp|];
      [|contradiction].
    destruct Hc as [<- | []]. exists x0, y0. repeat split; (lia || auto).
  - intros (x0 & y0 & Hx & Hy & Hp & ->). exists x0.
    split; [apply in_seq; lia|]. apply in_flat_map. exists y0.
    split; [apply in_seq; lia|]. unfold grid_cell, occupied_b.
    destruct (Z.ltb_spec 0 (nth (x0 + y0 * width m) (data m) 0%Z));
      [now left | lia].
Qed.

(** X1.  When [data] holds one entry per cell, [preprocess_map] returns the
    coordinates of the cells of positive occupancy, each once, column by
    column, and nothing else.  When [data] is longer, one row (0, 0) is
    left in the result for every positive entry beyond the grid. *)
Theorem preprocess_map_occupied_cells (m : OccupancyGrid) :
  (length (data m) = (width m * height m)%nat ->
   preprocess_map m = Ok (occupied_cells m))
  /\ ((width m * height m <= length (data m))%nat ->
      preprocess_map m
      = Ok (occupied_cells m
              ++ repeat (0, 0)
                   (length (filter occupied_b
                              (skipn (width m * height m) (data m)))))).
Proof.
  split.
  - intros Hlen. rewrite preprocess_map_covered by lia.
    rewrite <- Hlen, skipn_all. simpl. rewrite app_nil_r. reflexivity.
  - apply preprocess_map_covered.
Qed.

Lemma preprocess_map_occupied_cells_witness :
  preprocess_map small_grid = Ok (occupied_cells small_grid)
  /\ preprocess_map
       (mkOccupancyGrid 1 1 1 0 0 [5; 7; 0; 9]%Z)
     = Ok (occupied_cells (mkOccupancyGrid 1 1 1 0 0 [5; 7; 0; 9]%Z)
             ++ repeat (0, 0) 2).
Proof.
  split.
  - apply (proj1 (preprocess_map_occupied_cells small_grid)). reflexivity.
  - apply (proj2 (preprocess_map_occupied_cells
                    (mkOccupancyGrid 1 1 1 0 0 [5; 7; 0; 9]%Z))).
    simpl. lia.
Defined.

(** X2.  With one entry per cell, a coordinate is among the obstacles
    exactly when it is the coordinate [(x * resolution + origin.x,
    y * resolution + origin.y)] of a cell [(x, y)] of the grid whose entry
    [data[x + y * width]] is strictly positive: zero and negative
    (unknown) cells are left out. *)
Theorem preprocess_map_membership (m : OccupancyGrid) :
  length (data m) = (width m * height m)%nat ->
  exists obstacles,
    preprocess_map m = Ok obstacles
    /\ length obstacles = length (filter occupied_b (data m))
    /\ forall c,
         In c obstacles
         <-> exists x0 y0,
               (x0 < width m)%nat /\ (y0 < height m)%nat
               /\ (0 < nth (x0 + y0 * width m) (data m) 0)%Z
               /\ c = (INR x0 * resolution m + origin_x m,
                       INR y0 * resolution m + origin_y m).
Proof.
  intros Hlen. exists (occupied_cells m).
  split; [|split].
  - rewrite preprocess_map_covered by lia.
    rewrite <- Hlen, skipn_all. simpl. rewrite app_nil_r. reflexivity.
  - pose proof (occupied_count m ltac:(lia)) as Hc.
    rewrite <- Hlen, skipn_all in Hc. simpl in Hc. lia.
  - intros c. apply in_occupied_cells.
Qed.

Lemma preprocess_map_membership_witness :
  exists obstacles,
    preprocess_map small_grid = Ok obstacles
    /\ length obstacles = 2%nat
    /\ forall c,
         In c obstacles
         <-> exists x0 y0,
               (x0 < 2)%nat /\ (y0 < 2)%nat
               /\ (0 < nth (x0 + y0 * 2) [0; 100; -1; 1] 0)%Z
               /\ c = (INR x0 * (1 / 2) + 1, INR y0 * (1 / 2) + 2).
Proof.
  apply (preprocess_map_membership small_grid). reflexivity.
Defined.

(** X3.  When [data] has fewer entries than the grid has cells, the loops
    reach an index outside [data] and [preprocess_map] raises
    [IndexError]. *)
Theorem preprocess_map_short_data (m : OccupancyGrid) :
  (length (data m) < width m * height m)%nat ->
  preprocess_map m = Raise IndexError.
Proof.
  intros Hlt. unfold preprocess_map.
  assert (Hw : (0 < width m)%nat) by nia.
  assert (Hh : (0 < height m)%nat) by nia.
  rewrite (fold_result_raises _ IndexError (seq 0 (width m)) (width m - 1)%nat);
    [reflexivity | | apply in_seq; lia | ].
  - intros s x0 e. apply fold_result_exn. intros s' y0 e'.
    apply map_cell_exn.
  - intros s.
    apply (fold_result_raises _ IndexError (seq 0 (height m)) (height m - 1)%nat).
    + intros s' y0 e'. apply map_cell_exn.
    + apply in_seq. lia.
    + intros s'. unfold map_cell.
      destruct (nth_error (data m)
                  (width m - 1 + (height m - 1) * width m)%nat)
        as [v|] eqn:En; [|reflexivity].
      assert (Hn : nth_error (data m)
                     (width m - 1 + (height m - 1) * width m)%nat <> None)
        by congruence.
      apply nth_error_Some in Hn. nia.
Qed.

Lemma preprocess_map_short_data_witness :
  preprocess_map (mkOccupancyGrid 2 2 1 0 0 [1; 0; 1]%Z) = Raise IndexError.
Proof.
  apply (preprocess_map_short_data (mkOccupancyGrid 2 2 1 0 0 [1; 0; 1]%Z)).
  simpl. lia.
Defined.

(** ** calculate_sensor_weight: values and exceptions *)

Lemma length_removelast {A : Type} (l : list A) :
  length (removelast l) = (length l - 1)%nat.
Proof.
  rewrite removelast_firstn_len, length_firstn. lia.
Qed.

Lemma inverse_cube_pos (d : R) : 0 < d -> 0 < (1 / d) ^ 3.
Proof.
  intros Hd. apply pow_lt. apply Rdiv_lt_0_compat; lra.
Qed.

Lemma contribution_nonneg (a e : R) : 0 <= contribution a e.
Proof.
  unfold contribution. destruct (Rlt_dec 0 (Rabs (a - e))) as [Hd|]; [|lra].
  left. apply inverse_cube_pos. exact Hd.
Qed.

Lemma contribution_zero_iff (a e : R) : contribution a e = 0 <-> a = e.
Proof.
  split.
  - unfold contribution. destruct (Rlt_dec 0 (Rabs (a - e))) as [Hd | Hd].
    + pose proof (inverse_cube_pos _ Hd). lra.
    + intros _. destruct (Req_dec_T a e) as [E | N]; [exact E|].
      exfalso. apply Hd. apply Rabs_pos_lt. lra.
  - intros ->. apply contribution_same.
Qed.

Lemma sum_filtered_cubes_nonneg (l : list R) :
  0 <= sum (map (fun d => (1 / d) ^ 3) (filter Rpos_b l)).
Proof.
  induction l as [|d l IH]; cbn [filter map].
  - rewrite sum_nil. lra.
  - unfold Rpos_b at 1. destruct (Rlt_dec 0 d) as [Hd|]; [|exact IH].
    cbn [map]. rewrite sum_cons. pose proof (inverse_cube_pos d Hd). lra.
Qed.

Lemma expected_lidar_length (obs : list (R * R)) (particle : Particle) :
  exists e, expected_lidar_of obs particle = Ok e /\ length e = 360%nat.
Proof.
  destruct (expected_lidar_buckets obs particle) as (e & E & Hlen & _).
  eauto.
Qed.

Lemma np_abs_diff_exn (a e : list R) (ex : exn) :
  np_abs_diff a e = Raise ex -> ex = ValueError.
Proof.
  unfold np_abs_diff. destruct (Nat.eqb _ _); [discriminate|].
  destruct a as [|a0 [|a1 a]]; destruct e as [|e0 [|e1 e]];
    intros E; try discriminate; congruence.
Qed.

(** X4.  Whatever the map, the scan and the particle,
    [calculate_sensor_weight] either returns a weight that is not negative
    or raises [ValueError]; it raises nothing else. *)
Theorem sensor_weight_nonneg (obs : list (R * R)) (lidar : option (list R))
    (particle : Particle) :
  match calculate_sensor_weight obs lidar particle with
  | Ok w => 0 <= w
  | Raise e => e = ValueError
  end.
Proof.
  unfold calculate_sensor_weight. destruct lidar as [ranges|]; [|lra].
  destruct (expected_lidar_length obs particle) as (e & E & _).
  rewrite E. cbn [bind]. unfold compare_lidar.
  destruct (np_abs_diff (removelast ranges) e) as [d | ex] eqn:Ed; cbn [bind].
  - apply sum_filtered_cubes_nonneg.
  - apply (np_abs_diff_exn _ _ _ Ed).
Qed.

(** X5.  With a scan present, the weight is computed exactly when the scan
    has 361 readings (360 after the last is dropped) or 2 readings (the
    single remaining one is compared with every bucket); a scan of any
    other length raises [ValueError]. *)
Theorem sensor_weight_scan_length (obs : list (R * R)) (ranges : list R)
    (particle : Particle) :
  (length ranges = 361%nat \/ length ranges = 2%nat ->
   exists w, calculate_sensor_weight obs (Some ranges) particle = Ok w)
  /\ (length ranges <> 361%nat -> length ranges <> 2%nat ->
      calculate_sensor_weight obs (Some ranges) particle = Raise ValueError).
Proof.
  unfold calculate_sensor_weight.
  destruct (expected_lidar_length obs particle) as (e & E & Hlen).
  rewrite E. cbn [bind]. unfold compare_lidar, np_abs_diff.
  pose proof (length_removelast ranges) as Hr.
  split.
  - intros [H361 | H2].
    + rewrite Hr, H361, Hlen. simpl Nat.eqb. cbn [bind]. eauto.
    + rewrite Hr, H2, Hlen. simpl Nat.eqb. cbv iota.
      destruct (removelast ranges) as [|a0 [|a1 a]]; simpl in Hr; try lia.
      cbn [bind]. eauto.
  - intros N361 N2. rewrite Hlen.
    destruct (Nat.eqb_spec (length (removelast ranges)) 360) as [E360 | _];
      [lia|].
    destruct (removelast ranges) as [|a0 [|a1 a]]; simpl in Hr; try lia;
      destruct e as [|e0 [|e1 e]]; simpl in Hlen; try lia; reflexivity.
Qed.

Lemma sensor_weight_scan_length_witness :
  (exists w,
     calculate_sensor_weight [(2, 0)] (Some (repeat 0 361))
       (mkParticle 0 0 0 1) = Ok w)
  /\ calculate_sensor_weight [(2, 0)] (Some [1; 2; 3]) (mkParticle 0 0 0 1)
     = Raise ValueError.
Proof.
  split.
  - apply (proj1 (sensor_weight_scan_length [(2, 0)] (repeat 0 361)
                    (mkParticle 0 0 0 1))).
    left. apply repeat_length.
  - apply (proj2 (sensor_weight_scan_length [(2, 0)] [1; 2; 3]
                    (mkParticle 0 0 0 1)));
      simpl; lia.
Defined.

Lemma bucket_occupied_dec (obs : list (R * R)) (particle : Particle) (b : nat) :
  (exists ob, In ob obs /\ bucket_of particle ob = b)
  \/ (forall ob, In ob obs -> bucket_of particle ob <> b).
Proof.
  induction obs as [|ob obs [(ob' & Hin & Hb) | Hnone]].
  - right. intros ob [].
  - left. exists ob'. split; [now right | exact Hb].
  - destruct (Nat.eq_dec (bucket_of particle ob) b) as [E | N].
    + left. exists ob. split; [now left | exact E].
    + right. intros ob' [<- | Hin]; [exact N | now apply Hnone].
Qed.

Lemma clamp_range_bounds (rho : R) : 0 <= rho -> 0 <= clamp_range rho <= 3.
Proof.
  intros Hr. unfold clamp_range. destruct (Rlt_dec 3 rho); lra.
Qed.

Lemma obstacle_polar_rho_nonneg (particle : Particle) (ob : R * R) :
  0 <= snd (obstacle_polar particle ob).
Proof. apply sqrt_pos. Qed.

Lemma expected_lidar_in_range (obs : list (R * R)) (particle : Particle) :
  exists e,
    expected_lidar_of obs particle = Ok e
    /\ length e = 360%nat
    /\ forall b, 0 <= nth b e 0 <= 3.
Proof.
  destruct (expected_lidar_buckets obs particle) as (e & E & Hlen & Hb).
  exists e. split; [exact E|]. split; [exact Hlen|]. intros b.
  destruct (Hb b) as (Hnone & _ & Hat).
  destruct (bucket_occupied_dec obs particle b) as [Hex | Hno].
  - destruct (Hat Hex) as (ob & _ & _ & ->).
    apply clamp_range_bounds. apply obstacle_polar_rho_nonneg.
  - rewrite (Hnone Hno). lra.
Qed.

(** X6.  The expected scan is always computed: it has 360 entries and each
    of them lies between 0 and the cutoff 3.0, whatever the map and the
    particle. *)
Theorem expected_lidar_bounds (obs : list (R * R)) (particle : Particle) :
  exists e,
    expected_lidar_of obs particle = Ok e
    /\ length e = 360%nat
    /\ forall b, 0 <= nth b e 0 <= 3.
Proof. apply expected_lidar_in_range. Qed.

Lemma sum_contributions_zero_iff (a e : list R) :
  length a = length e ->
  sum (map (fun ae => contribution (fst ae) (snd ae)) (combine a e)) = 0
  <-> a = e.
Proof.
  revert e. induction a as [|a0 a IH]; intros [|e0 e] Hlen;
    simpl in Hlen; try lia.
  - simpl. rewrite sum_nil. tauto.
  - simpl. rewrite sum_cons.
    assert (Hrest : 0 <= sum (map (fun ae => contribution (fst ae) (snd ae))
                                  (combine a e))).
    { apply sum_nonneg. apply Forall_map. apply Forall_forall.
      intros ae _. apply contribution_nonneg. }
    pose proof (contribution_nonneg a0 e0) as H0.
    split.
    + intros Hs.
      assert (Hc : contribution a0 e0 = 0) by lra.
      assert (Hr : sum (map (fun ae => contribution (fst ae) (snd ae))
                            (combine a e)) = 0) by lra.
      apply (proj1 (contribution_zero_iff a0 e0)) in Hc.
      apply (proj1 (IH e ltac:(lia))) in Hr.
      congruence.
    + intros E. inversion E; subst.
      rewrite contribution_same.
      rewrite (proj2 (IH e ltac:(lia)) eq_refl). lra.
Qed.

(** X7.  For a scan of 361 readings the weight is 0 exactly when the 360
    readings kept coincide with the expected scan in every bucket: a
    particle whose expectation matches the scan perfectly gets the lowest
    weight there is. *)
Theorem sensor_weight_zero_iff_match (obs : list (R * R)) (ranges : list R)
    (particle : Particle) :
  length ranges = 361%nat ->
  exists w e,
    calculate_sensor_weight obs (Some ranges) particle = Ok w
    /\ expected_lidar_of obs particle = Ok e
    /\ (w = 0 <-> removelast ranges = e).
Proof.
  intros Hlen.
  destruct (expected_lidar_length obs particle) as (e & E & Hlene).
  assert (Hl : length (removelast ranges) = length e)
    by (rewrite length_removelast; lia).
  eexists. exists e. unfold calculate_sensor_weight. rewrite E. cbn [bind].
  rewrite compare_lidar_sum by exact Hl.
  split; [reflexivity|]. split; [reflexivity|].
  apply sum_contributions_zero_iff. exact Hl.
Qed.

Lemma sensor_weight_zero_iff_match_witness :
  exists w e,
    calculate_sensor_weight [] (Some (repeat 0 361)) (mkParticle 0 0 0 1)
    = Ok w
    /\ expected_lidar_of [] (mkParticle 0 0 0 1) = Ok e
    /\ (w = 0 <-> removelast (repeat 0 361) = e).
Proof.
  apply (sensor_weight_zero_iff_match [] (repeat 0 361) (mkParticle 0 0 0 1)).
  apply repeat_length.
Defined.

(** ** Polar coordinates *)

Lemma norm_from_slope (x0 y0 : R) :
  x0 <> 0 ->
  sqrt (x0 ^ 2 + y0 ^ 2) = Rabs x0 * sqrt (1 + (y0 / x0)²).
Proof.
  intros Hx.
  assert (Hq : 0 <= 1 + (y0 / x0)²) by (unfold Rsqr; nra).
  apply sqrt_lem_1.
  - nra.
  - apply Rmult_le_pos; [apply Rabs_pos | apply sqrt_pos].
  - replace (Rabs x0 * sqrt (1 + (y0 / x0)²) * (Rabs x0 * sqrt (1 + (y0 / x0)²)))
      with ((Rabs x0 * Rabs x0)
            * (sqrt (1 + (y0 / x0)²) * sqrt (1 + (y0 / x0)²))) by ring.
    rewrite sqrt_sqrt by exact Hq.
    replace (Rabs x0 * Rabs x0) with (x0 * x0)
      by (unfold Rabs; destruct (Rcase_abs x0); ring).
    unfold Rsqr. field. exact Hx.
Qed.

Lemma slope_norm_pos (t : R) : 0 < sqrt (1 + t²).
Proof. apply sqrt_lt_R0. unfold Rsqr. nra. Qed.

(** [arctan2 y x] is the polar angle of the point [(x, y)]. *)
Lemma arctan2_polar_angle (y0 x0 : R) :
  sqrt (x0 ^ 2 + y0 ^ 2) * cos (arctan2 y0 x0) = x0
  /\ sqrt (x0 ^ 2 + y0 ^ 2) * sin (arctan2 y0 x0) = y0.
Proof.
  pose proof (slope_norm_pos (y0 / x0)) as Hq.
  unfold arctan2.
  destruct (Rlt_dec 0 x0) as [Hpos | Hnpos].
  - rewrite norm_from_slope, Rabs_right, cos_atan, sin_atan by lra.
    split; field; lra.
  - destruct (Rlt_dec x0 0) as [Hneg | Hnneg].
    + rewrite norm_from_slope, Rabs_left by lra.
      destruct (Rle_dec 0 y0).
      * rewrite neg_cos, neg_sin, cos_atan, sin_atan. split; field; lra.
      * rewrite cos_minus, sin_minus, cos_PI, sin_PI, cos_atan, sin_atan.
        split; field; lra.
    + assert (Hx : x0 = 0) by lra. subst x0.
      replace (0 ^ 2 + y0 ^ 2) with (y0 ^ 2) by ring.
      destruct (Rlt_dec 0 y0) as [Hy | Hy].
      * rewrite sqrt_pow2, cos_PI2, sin_PI2 by lra. split; ring.
      * destruct (Rlt_dec y0 0) as [Hy' | Hy'].
        -- replace (y0 ^ 2) with ((- y0) ^ 2) by ring.
           rewrite sqrt_pow2, cos_neg, sin_neg, cos_PI2, sin_PI2 by lra.
           split; ring.
        -- assert (Hy0 : y0 = 0) by lra. subst y0.
           replace (0 ^ 2) with 0 by ring. rewrite sqrt_0. split; ring.
Qed.

Lemma arctan2_renormalises (a : R) :
  sin (arctan2 (sin a) (cos a)) = sin a
  /\ cos (arctan2 (sin a) (cos a)) = cos a.
Proof.
  destruct (arctan2_polar_angle (sin a) (cos a)) as [Hc Hs].
  assert (E : sqrt (cos a ^ 2 + sin a ^ 2) = 1).
  { pose proof (sin2_cos2 a) as H1. unfold Rsqr in H1.
    replace (cos a ^ 2 + sin a ^ 2) with 1 by lra. apply sqrt_1. }
  rewrite E in Hc, Hs. split; lra.
Qed.

(** X8.  The conversion to polar coordinates of lines 236-242 loses
    nothing: the range and the world-frame bearing of an obstacle give
    back its offset from the particle. *)
Theorem polar_round_trip (particle : Particle) (ob : R * R) :
  let dx := fst ob - x particle in
  let dy := snd ob - y particle in
  let rho := snd (obstacle_polar particle ob) in
  rho * cos (arctan2 dy dx) = dx /\ rho * sin (arctan2 dy dx) = dy.
Proof.
  cbv zeta. unfold obstacle_polar. cbn [snd].
  apply arctan2_polar_angle.
Qed.

(** X9.  [arctan2(sin(phi), cos(phi))] (line 250) brings the rotated
    bearing into (-PI, PI] without changing the direction it denotes: the
    result has the sine and the cosine of the bearing plus the heading. *)
Theorem bearing_renormalised (particle : Particle) (ob : R * R) :
  let phi_rad :=
    arctan2 (snd ob - y particle) (fst ob - x particle) + theta particle in
  sin (bearing particle ob) = sin phi_rad
  /\ cos (bearing particle ob) = cos phi_rad
  /\ - PI < bearing particle ob <= PI.
Proof.
  cbv zeta. unfold bearing.
  destruct (arctan2_renormalises
              (arctan2 (snd ob - y particle) (fst ob - x particle)
               + theta particle)) as [Hs Hc].
  split; [exact Hs|]. split; [exact Hc|]. apply arctan2_range.
Qed.

(** ** Invariance of the sensor model *)

Lemma obstacle_polar_shift (particle : Particle) (ob : R * R) (a b : R) :
  obstacle_polar
    (mkParticle (x particle + a) (y particle + b) (theta particle)
                (weight particle))
    (fst ob + a, snd ob + b)
  = obstacle_polar particle ob.
Proof.
  unfold obstacle_polar. cbn [x y theta fst snd].
  replace (fst ob + a - (x particle + a)) with (fst ob - x particle) by ring.
  replace (snd ob + b - (y particle + b)) with (snd ob - y particle) by ring.
  reflexivity.
Qed.

Lemma obstacle_polar_full_turn (particle : Particle) (ob : R * R) :
  obstacle_polar
    (mkParticle (x particle) (y particle) (theta particle + 2 * PI)
                (weight particle))
    ob
  = obstacle_polar particle ob.
Proof.
  unfold obstacle_polar. cbn [x y theta fst snd].
  set (phi := arctan2 (snd ob - y particle) (fst ob - x particle)).
  replace (phi + (theta particle + 2 * PI))
    with (phi + theta particle + 2 * INR 1 * PI) by (simpl; ring).
  rewrite sin_period, cos_period. reflexivity.
Qed.

Lemma obstacle_polar_weight (particle : Particle) (ob : R * R) (w : R) :
  obstacle_polar
    (mkParticle (x particle) (y particle) (theta particle) w) ob
  = obstacle_polar particle ob.
Proof. reflexivity. Qed.

Lemma calculate_sensor_weight_ext (obs obs' : list (R * R))
    (p p' : Particle) (lidar : option (list R)) :
  map (obstacle_polar p') obs' = map (obstacle_polar p) obs ->
  calculate_sensor_weight obs' lidar p' = calculate_sensor_weight obs lidar p.
Proof.
  intros E. unfold calculate_sensor_weight, expected_lidar_of. rewrite E.
  reflexivity.
Qed.

(** X10.  The sensor weight depends only on where the obstacles are
    relative to the particle: moving the map and the particle by the same
    vector, turning the particle by a full turn, or changing the weight
    the particle carried before, leaves the result as it is. *)
Theorem sensor_weight_invariance (obs : list (R * R))
    (lidar : option (list R)) (particle : Particle) (a b w : R) :
  calculate_sensor_weight
    (map (fun ob => (fst ob + a, snd ob + b)) obs) lidar
    (mkParticle (x particle + a) (y particle + b) (theta particle)
                (weight particle))
  = calculate_sensor_weight obs lidar particle
  /\ calculate_sensor_weight obs lidar
       (mkParticle (x particle) (y particle) (theta particle + 2 * PI)
                   (weight particle))
     = calculate_sensor_weight obs lidar particle
  /\ calculate_sensor_weight obs lidar
       (mkParticle (x particle) (y particle) (theta particle) w)
     = calculate_sensor_weight obs lidar particle.
Proof.
  split; [|split]; apply calculate_sensor_weight_ext.
  - rewrite map_map. apply map_ext. intros ob. apply obstacle_polar_shift.
  - apply map_ext. intros ob. apply obstacle_polar_full_turn.
  - apply map_ext. intros ob. apply obstacle_polar_weight.
Qed.

(** ** Resampling draws particles of positive weight *)

Lemma sum_app (l1 l2 : list R) : sum (l1 ++ l2) = sum l1 + sum l2.
Proof.
  induction l1 as [|a l1 IH]; simpl.
  - rewrite sum_nil. lra.
  - rewrite !sum_cons, IH. lra.
Qed.

Lemma sum_firstn_S (ws : list R) (j : nat) :
  (j < length ws)%nat ->
  sum (firstn (S j) ws) = sum (firstn j ws) + nth j ws 0.
Proof.
  intros Hj. rewrite (firstn_snoc 0) by exact Hj.
  rewrite sum_app, sum_cons, sum_nil. lra.
Qed.

Lemma sum_firstn_mono (ws : list R) (i j : nat) :
  Forall (fun w => 0 <= w) ws -> (i <= j)%nat ->
  sum (firstn i ws) <= sum (firstn j ws).
Proof.
  intros Hnn Hij. induction Hij as [|j Hij IH]; [lra|].
  destruct (Nat.lt_ge_cases j (length ws)) as [Hlt | Hge].
  - rewrite sum_firstn_S by exact Hlt.
    assert (0 <= nth j ws 0).
    { apply (proj1 (Forall_forall _ ws) Hnn). apply nth_In. exact Hlt. }
    lra.
  - assert (E1 : firstn (S j) ws = ws) by (apply firstn_all2; lia).
    assert (E2 : firstn j ws = ws) by (apply firstn_all2; lia).
    rewrite E1. rewrite E2 in IH. exact IH.
Qed.

Lemma nth_accumulate_from (acc : R) (ws : list R) (j : nat) :
  (j < length ws)%nat ->
  nth j (accumulate_from acc ws) 0 = acc + sum (firstn (S j) ws).
Proof.
  revert acc j. induction ws as [|w ws IH]; intros acc j Hj; simpl in Hj;
    [lia|].
  destruct j as [|j].
  - simpl. rewrite sum_cons, sum_nil. lra.
  - change (nth (S j) (accumulate_from acc (w :: ws)) 0)
      with (nth j (accumulate_from (acc + w) ws) 0).
    rewrite IH by lia.
    change (firstn (S (S j)) (w :: ws)) with (w :: firstn (S j) ws).
    rewrite sum_cons. lra.
Qed.

(** On a sorted array the search returns the first position whose entry
    exceeds [v], within the window. *)
Lemma bisect_loop_sorted (a : list R) (v : R) (n : nat) :
  (forall i j, (i <= j < n)%nat -> nth i a 0 <= nth j a 0) ->
  forall fuel lo hi,
    (lo <= hi <= n)%nat -> (hi - lo <= fuel)%nat ->
    (forall j, (lo <= j < bisect_loop fuel a v lo hi)%nat -> nth j a 0 <= v)
    /\ (forall j, (bisect_loop fuel a v lo hi <= j < hi)%nat -> v < nth j a 0).
Proof.
  intros Hsorted. induction fuel as [|fuel IH]; intros lo hi Hb Hf;
    cbn [bisect_loop].
  - split; intros j Hj; lia.
  - destruct (Nat.ltb_spec lo hi) as [Hlt | Hge]; [|split; intros j Hj; lia].
    assert (Hmid : (lo <= (lo + hi) / 2 < hi)%nat).
    { split.
      - apply Nat.div_le_lower_bound; lia.
      - apply Nat.Div0.div_lt_upper_bound; lia. }
    set (mid := ((lo + hi) / 2)%nat) in *.
    destruct (Rlt_dec v (nth mid a 0)) as [Hv | Hv].
    + destruct (IH lo mid ltac:(lia) ltac:(lia)) as [Hlow Hhigh].
      split; [exact Hlow|]. intros j Hj.
      destruct (Nat.lt_ge_cases j mid) as [Hjm | Hjm].
      * apply Hhigh. lia.
      * pose proof (Hsorted mid j ltac:(lia)). lra.
    + destruct (IH (S mid) hi ltac:(lia) ltac:(lia)) as [Hlow Hhigh].
      split; [|exact Hhigh]. intros j Hj.
      destruct (Nat.lt_ge_cases mid j) as [Hjm | Hjm].
      * apply Hlow. lia.
      * pose proof (Hsorted j mid ltac:(lia)). lra.
Qed.

(** The particle a draw selects has a positive weight. *)
Lemma bisect_selects_positive (ws : list R) (v : R) :
  Forall (fun w => 0 <= w) ws -> 0 <= v < sum ws ->
  0 < nth (bisect (accumulate ws) v 0 (length ws - 1)) ws 0.
Proof.
  intros Hnn [Hv0 Hv1].
  destruct ws as [|w0 ws'] eqn:Ews; [rewrite sum_nil in Hv1; lra|].
  rewrite <- Ews in *. assert (Hlen : (0 < length ws)%nat) by (subst; simpl; lia).
  clear Ews w0 ws'.
  set (n := length ws) in *.
  assert (Hcum : forall j, (j < n)%nat ->
                   nth j (accumulate ws) 0 = sum (firstn (S j) ws)).
  { intros j Hj. unfold accumulate. rewrite nth_accumulate_from by exact Hj.
    lra. }
  assert (Hsorted : forall i j, (i <= j < n)%nat ->
                      nth i (accumulate ws) 0 <= nth j (accumulate ws) 0).
  { intros i j Hij. rewrite !Hcum by lia.
    apply sum_firstn_mono; [exact Hnn | lia]. }
  unfold bisect.
  pose proof (bisect_loop_bounds (n - 1 - 0) (accumulate ws) v 0 (n - 1)
                ltac:(lia)) as Hb.
  destruct (bisect_loop_sorted (accumulate ws) v n Hsorted (n - 1 - 0) 0
              (n - 1) ltac:(lia) ltac:(lia)) as [Hlow Hhigh].
  set (r := bisect_loop (n - 1 - 0) (accumulate ws) v 0 (n - 1)) in *.
  assert (Hup : v < sum (firstn (S r) ws)).
  { destruct (Nat.lt_ge_cases r (n - 1)) as [Hr | Hr].
    - rewrite <- Hcum by lia. apply Hhigh. lia.
    - replace (S r) with n by lia. unfold n. rewrite firstn_all. exact Hv1. }
  assert (Hdown : sum (firstn r ws) <= v).
  { destruct r as [|r'].
    - simpl. rewrite sum_nil. exact Hv0.
    - rewrite <- Hcum by lia. apply Hlow. lia. }
  rewrite sum_firstn_S in Hup by lia. lra.
Qed.

Lemma only_draws_draw_value (H : Helpers) (f : rng H -> R * rng H) :
  only_draws (draw f) (fun v => exists g, v = fst (f g)).
Proof.
  intros s. rewrite draw_eq. eauto.
Qed.

Lemma only_draws_map2 (H : Helpers) (A B : Type) (f : A -> M H B)
    (Q : A -> B -> Prop) (l : list A) :
  (forall a, In a l -> only_draws (f a) (Q a)) ->
  only_draws (map_M f l) (fun bs => Forall2 Q l bs).
Proof.
  induction l as [|a l IH]; intros Hf; simpl.
  - apply only_draws_ret. constructor.
  - eapply only_draws_bind; [apply Hf; now left|]. intros b Hb.
    eapply only_draws_bind; [apply IH; intros; apply Hf; now right|].
    intros bs Hbs. apply only_draws_ret. constructor; assumption.
Qed.

Lemma choices_select_positive (H : Helpers) (ps : list Particle) (k : nat) :
  (forall g, 0 <= fst (random H g) < 1) ->
  Forall (fun p => 0 <= weight p) ps ->
  0 < sum (map weight ps) ->
  only_draws (@choices H Particle ps (map weight ps) k)
             (fun l => length l = k
                       /\ Forall (fun c => In c ps /\ 0 < weight c) l).
Proof.
  intros Hrand Hnn Hpos. unfold choices, accumulate.
  rewrite length_accumulate_from, length_map, Nat.eqb_refl.
  simpl negb. cbv iota.
  destruct (map weight ps) as [|w ws] eqn:Ew.
  { rewrite sum_nil in Hpos. lra. }
  destruct (last_accumulate_from 0 w ws) as [front E]. rewrite E.
  destruct (Rle_dec (0 + sum (w :: ws)) 0) as [Hle | _]; [lra|].
  apply only_draws_repeat.
  eapply only_draws_bind; [apply only_draws_draw_value|].
  intros u [g ->]. specialize (Hrand g).
  rewrite <- Ew in *. clear E front Ew w ws.
  set (v := fst (random H g) * (0 + sum (map weight ps))).
  assert (Hv : 0 <= v < sum (map weight ps)) by (unfold v; nra).
  pose proof (bisect_selects_positive (map weight ps) v
                ltac:(apply Forall_map; exact Hnn) Hv) as Hsel.
  rewrite length_map in Hsel. fold (accumulate (map weight ps)).
  set (r := bisect (accumulate (map weight ps)) v 0 (length ps - 1)) in *.
  destruct (nth_error ps r) as [c|] eqn:En.
  - apply only_draws_ret. split; [eapply nth_error_In; exact En|].
    rewrite (nth_error_nth _ _ 0 (map_nth_error weight _ _ En)) in Hsel.
    exact Hsel.
  - exfalso. apply nth_error_None in En.
    rewrite (nth_overflow (map weight ps)) in Hsel
      by (rewrite length_map; exact En).
    lra.
Qed.

(** X11.  With a generator whose [random()] lies in [0, 1) and
    non-negative weights of positive total, every particle
    [sample_particles] returns is a jittered copy of an input particle
    whose weight is strictly positive: a particle of weight 0 is never
    resampled. *)
Theorem resample_positive_weight (H : Helpers) (ps : list Particle)
    (xy_sigma xy_noise theta_sigma theta_noise : R) (k : nat) (s : Node H) :
  (forall g, 0 <= fst (random H g) < 1) ->
  Forall (fun p => 0 <= weight p) ps ->
  0 < sum (map weight ps) ->
  exists chosen out,
    snd (sample_particles ps xy_sigma xy_noise theta_sigma theta_noise k s)
    = Ok out
    /\ length chosen = k
    /\ Forall (fun c => In c ps /\ 0 < weight c) chosen
    /\ Forall2 (jitter_of H xy_sigma xy_noise theta_sigma theta_noise)
               chosen out.
Proof.
  intros Hrand Hnn Hpos. unfold sample_particles, mbind.
  destruct (choices_select_positive H ps k Hrand Hnn Hpos s)
    as (g & chosen & E & Hlen & Hch).
  rewrite E.
  assert (Hmap : only_draws
            (map_M
               (fun choice =>
                  nx <~ draw (sample_normal H (x choice) xy_sigma xy_noise
                                (x choice - 5, x choice + 5)) ;;
                  ny <~ draw (sample_normal H (y choice) xy_sigma xy_noise
                                (y choice - 5, y choice + 5)) ;;
                  nt <~ draw (sample_normal H (theta choice) theta_sigma
                                theta_noise (- PI, PI)) ;;
                  ret (mkParticle nx ny nt 1))
               chosen)
            (fun out =>
               Forall2 (jitter_of H xy_sigma xy_noise theta_sigma theta_noise)
                       chosen out)).
  { apply only_draws_map2. intros c _.
    eapply only_draws_bind; [apply only_draws_draw_value|]. intros nx Hx.
    eapply only_draws_bind; [apply only_draws_draw_value|]. intros ny Hy.
    eapply only_draws_bind; [apply only_draws_draw_value|]. intros nt Ht.
    apply only_draws_ret. unfold jitter_of. cbn [x y theta weight]. auto. }
  destruct (Hmap (set_gen H g s)) as (g' & out & E' & Hout).
  exists chosen, out. unfold mbind in E'. unfold mbind. rewrite E'.
  auto.
Qed.

Lemma resample_positive_weight_witness :
  exists chosen out,
    snd (sample_particles
           [mkParticle 0 0 0 0; mkParticle 1 2 3 (1 / 4); mkParticle 5 5 1 0]
           INITIAL_STATE_XY_SIGMA INITIAL_STATE_XY_NOISE
           INITIAL_STATE_THETA_SIGMA INITIAL_STATE_THETA_NOISE 4 fresh_node)
    = Ok out
    /\ length chosen = 4%nat
    /\ Forall (fun c =>
                 In c [mkParticle 0 0 0 0; mkParticle 1 2 3 (1 / 4);
                       mkParticle 5 5 1 0]
                 /\ 0 < weight c) chosen
    /\ Forall2 (jitter_of still_helpers INITIAL_STATE_XY_SIGMA
                  INITIAL_STATE_XY_NOISE INITIAL_STATE_THETA_SIGMA
                  INITIAL_STATE_THETA_NOISE)
               chosen out.
Proof.
  apply (resample_positive_weight still_helpers).
  - intros g. simpl. lra.
  - repeat constructor; simpl; lra.
  - unfold sum. simpl. lra.
Defined.

(** ** apply_motion *)

(** The three draws of [apply_motion] and what they do to the set. *)
Lemma apply_motion_shift (H : Helpers) (ps : list Particle)
    (delta_pose : PoseTuple) (sigma : R) (s : Node H) :
  let d1 := sample_normal_error H (pose_x delta_pose) sigma (gen s) in
  let d2 := sample_normal_error H (pose_y delta_pose) sigma (snd d1) in
  let d3 := sample_normal_error H (pose_theta delta_pose) sigma (snd d2) in
  exists dx dy,
    apply_motion ps delta_pose sigma s
    = (set_gen H (snd d3) s, Ok (map (moved dx dy (fst d3)) ps))
    /\ dx ^ 2 + dy ^ 2 = fst d1 ^ 2 + fst d2 ^ 2
    /\ length (map (moved dx dy (fst d3)) ps) = length ps
    /\ map weight (map (moved dx dy (fst d3)) ps) = map weight ps.
Proof.
  cbv zeta. unfold apply_motion.
  erewrite mbind_step by apply draw_eq. cbn [gen set_gen].
  erewrite mbind_step by apply draw_eq. cbn [gen set_gen].
  erewrite mbind_step by apply draw_eq. cbn [gen set_gen].
  set (d1 := sample_normal_error H (pose_x delta_pose) sigma (gen s)).
  set (d2 := sample_normal_error H (pose_y delta_pose) sigma (snd d1)).
  set (d3 := sample_normal_error H (pose_theta delta_pose) sigma (snd d2)).
  exists (cos (fst d3) * fst d1 + - sin (fst d3) * fst d2),
         (sin (fst d3) * fst d1 + cos (fst d3) * fst d2).
  split; [reflexivity|]. split; [|split].
  - pose proof (sin2_cos2 (fst d3)) as Hsc. unfold Rsqr in Hsc.
    replace ((cos (fst d3) * fst d1 + - sin (fst d3) * fst d2) ^ 2
             + (sin (fst d3) * fst d1 + cos (fst d3) * fst d2) ^ 2)
      with ((sin (fst d3) * sin (fst d3) + cos (fst d3) * cos (fst d3))
            * (fst d1 ^ 2 + fst d2 ^ 2)) by ring.
    rewrite Hsc. ring.
  - apply length_map.
  - rewrite map_map. reflexivity.
Qed.

(** X12.  [apply_motion] never raises and keeps the number of particles,
    their order and their weights.  It draws one displacement for the
    whole set: every particle is moved by the same vector and turned by
    the same angle, and the vector is as long as the displacement sampled
    in the robot frame (it is that displacement, rotated). *)
Theorem apply_motion_rigid (H : Helpers) (ps : list Particle)
    (delta_pose : PoseTuple) (sigma : R) (s : Node H) :
  let d1 := sample_normal_error H (pose_x delta_pose) sigma (gen s) in
  let d2 := sample_normal_error H (pose_y delta_pose) sigma (snd d1) in
  let d3 := sample_normal_error H (pose_theta delta_pose) sigma (snd d2) in
  exists dx dy,
    apply_motion ps delta_pose sigma s
    = (set_gen H (snd d3) s, Ok (map (moved dx dy (fst d3)) ps))
    /\ dx ^ 2 + dy ^ 2 = fst d1 ^ 2 + fst d2 ^ 2
    /\ length (map (moved dx dy (fst d3)) ps) = length ps
    /\ map weight (map (moved dx dy (fst d3)) ps) = map weight ps.
Proof. apply apply_motion_shift. Qed.

Lemma particle_eta (p : Particle) :
  mkParticle (x p) (y p) (theta p) (weight p) = p.
Proof. destruct p; reflexivity. Qed.

(** X13.  If the noise model returns 0 for mean 0 and sigma 0, a motion
    update with delta (0, 0, 0) and sigma 0 returns the particles exactly
    as they were. *)
Theorem apply_motion_still (H : Helpers) (ps : list Particle) (s : Node H) :
  (forall g, fst (sample_normal_error H 0 0 g) = 0) ->
  snd (apply_motion ps (mkPoseTuple 0 0 0) 0 s) = Ok ps.
Proof.
  intros Hzero.
  destruct (apply_motion_shift H ps (mkPoseTuple 0 0 0) 0 s)
    as (dx & dy & E & Hnorm & _).
  cbn [pose_x pose_y pose_theta] in *. rewrite E. cbn [snd].
  rewrite !Hzero in Hnorm. rewrite Hzero.
  assert (Hdx : dx = 0) by nra. assert (Hdy : dy = 0) by nra.
  subst dx dy. f_equal. rewrite <- (map_id ps) at 2. apply map_ext.
  intros p. unfold moved. rewrite <- (particle_eta p) at 5.
  f_equal; ring.
Qed.

Lemma apply_motion_still_witness :
  snd (apply_motion [mkParticle 1 2 3 1; mkParticle 4 5 6 2]
         (mkPoseTuple 0 0 0) 0 fresh_node)
  = Ok [mkParticle 1 2 3 1; mkParticle 4 5 6 2].
Proof.
  apply (apply_motion_still still_helpers). intros g. reflexivity.
Defined.

(** ** Only relative weights matter *)

Lemma sum_scale (c : R) (l : list R) :
  sum (map (fun w => c * w) l) = c * sum l.
Proof.
  induction l as [|a l IH]; simpl.
  - rewrite sum_nil. ring.
  - rewrite !sum_cons, IH. ring.
Qed.

Lemma weights_scaled (c : R) (ps : list Particle) :
  map weight (map (scale_weight c) ps) = map (fun w => c * w) (map weight ps).
Proof. rewrite !map_map. reflexivity. Qed.

Lemma map_result_ext {A B : Type} (f g : A -> result B) (l : list A) :
  (forall a, f a = g a) -> map_result f l = map_result g l.
Proof.
  intros E. induction l as [|a l IH]; simpl; [reflexivity|].
  rewrite E, IH. reflexivity.
Qed.

Lemma map_result_map {A B C : Type} (h : A -> B) (f : B -> result C)
    (l : list A) :
  map_result f (map h l) = map_result (fun a => f (h a)) l.
Proof.
  induction l as [|a l IH]; simpl; [reflexivity|]. rewrite IH. reflexivity.
Qed.

Lemma normalize_weights_scaled (c : R) (ps : list Particle) :
  c <> 0 ->
  normalize_weights (map (scale_weight c) ps) = normalize_weights ps.
Proof.
  intros Hc. unfold normalize_weights.
  rewrite weights_scaled, sum_scale, map_result_map.
  apply map_result_ext. intros p. unfold py_div. cbn [scale_weight x y theta weight].
  destruct (Req_dec_T (c * sum (map weight ps)) 0) as [E | N];
    destruct (Req_dec_T (sum (map weight ps)) 0) as [E' | N'].
  - reflexivity.
  - exfalso. apply N'. apply (Rmult_eq_reg_l c); [lra | exact Hc].
  - exfalso. apply N. rewrite E'. ring.
  - cbn [bind]. do 2 f_equal. field. split; assumption.
Qed.

Lemma np_average_scaled (c : R) (rows : list (R * R * R)) (ws : list R) :
  c <> 0 ->
  np_average rows (map (fun w => c * w) ws) = np_average rows ws.
Proof.
  intros Hc. unfold np_average. rewrite length_map, sum_scale.
  destruct (negb (Nat.eqb (length rows) (length ws))); [reflexivity|].
  assert (Hcol : forall f : R * R * R -> R,
             sum (map (fun rw => f (fst rw) * snd rw)
                      (combine rows (map (fun w => c * w) ws)))
             = c * sum (map (fun rw => f (fst rw) * snd rw) (combine rows ws))).
  { intros f. clear. revert ws. induction rows as [|r rows IH]; intros [|w ws];
      simpl; try (rewrite sum_nil; ring).
    rewrite !sum_cons, IH. ring. }
  destruct (Req_dec_T (c * sum ws) 0) as [E | N];
    destruct (Req_dec_T (sum ws) 0) as [E' | N'].
  - reflexivity.
  - exfalso. apply N'. apply (Rmult_eq_reg_l c); [lra | exact Hc].
  - exfalso. apply N. rewrite E'. ring.
  - rewrite (Hcol (fun r => fst (fst r))), (Hcol (fun r => snd (fst r))),
      (Hcol snd).
    f_equal. f_equal; [f_equal|]; field; split; assumption.
Qed.

(** X14.  Multiplying every weight by the same nonzero factor changes
    nothing: [normalize_weights] returns the same particles (or raises the
    same exception), and [set_particles] leaves the node in the same state
    with the same pose estimate. *)
Theorem weights_scale_invariant (H : Helpers) (c : R) (stamp : Z)
    (ps : list Particle) (s : Node H) :
  c <> 0 ->
  normalize_weights (map (scale_weight c) ps) = normalize_weights ps
  /\ set_particles stamp (map (scale_weight c) ps) s = set_particles stamp ps s.
Proof.
  intros Hc. split; [apply normalize_weights_scaled; exact Hc|].
  unfold set_particles.
  rewrite normalize_weights_scaled by exact Hc.
  rewrite weights_scaled.
  unfold mbind at 1 2. unfold mbind at 4 5. cbn [modify].
  unfold lift at 1 3.
  destruct (normalize_weights ps) as [normalized | e]; [|reflexivity].
  unfold mbind at 1 2. unfold mbind at 3 4. cbn [modify]. unfold lift.
  rewrite np_average_scaled by exact Hc. reflexivity.
Qed.

Lemma weights_scale_invariant_witness :
  normalize_weights
    (map (scale_weight 3) [mkParticle 0 0 0 1; mkParticle 2 0 0 3])
  = normalize_weights [mkParticle 0 0 0 1; mkParticle 2 0 0 3]
  /\ set_particles 5%Z
       (map (scale_weight 3) [mkParticle 0 0 0 1; mkParticle 2 0 0 3])
       fresh_node
     = set_particles 5%Z [mkParticle 0 0 0 1; mkParticle 2 0 0 3] fresh_node.
Proof.
  apply (weights_scale_invariant still_helpers). lra.
Defined.

(** X15.  Normalizing is idempotent: a particle list that
    [normalize_weights] returned is returned unchanged when normalized
    again. *)
Theorem normalize_weights_idempotent (ps ps' : list Particle) :
  normalize_weights ps = Ok ps' -> normalize_weights ps' = Ok ps'.
Proof.
  intros E.
  destruct (Req_dec_T (sum (map weight ps)) 0) as [Hz | Hnz].
  - destruct ps as [|p ps].
    + inversion E. reflexivity.
    + rewrite normalize_weights_zero in E by (discriminate || exact Hz).
      discriminate.
  - rewrite normalize_weights_nonzero in E by exact Hnz.
    injection E as E. subst ps'.
    set (qs := map (rescale (sum (map weight ps))) ps).
    assert (H1 : sum (map weight qs) = 1)
      by (unfold qs; rewrite sum_weight_rescale; field; exact Hnz).
    rewrite (normalize_weights_nonzero qs) by (rewrite H1; lra).
    rewrite H1. f_equal. rewrite <- (map_id qs) at 2.
    apply map_ext. intros q. unfold rescale.
    rewrite <- (particle_eta q) at 5. f_equal. field.
Qed.

Lemma normalize_weights_idempotent_witness :
  normalize_weights
    [mkParticle 0 0 0 (1 / 4); mkParticle 1 1 1 (3 / 4)]
  = Ok [mkParticle 0 0 0 (1 / 4); mkParticle 1 1 1 (3 / 4)].
Proof.
  apply (normalize_weights_idempotent
           [mkParticle 0 0 0 1; mkParticle 1 1 1 3]).
  rewrite normalize_weights_nonzero by (unfold sum; simpl; lra).
  unfold rescale, sum. simpl. do 2 f_equal; [|f_equal]; f_equal; field.
Defined.

(** ** The pose estimate stays among the particles *)

Lemma weighted_sum_bounds (f : Particle -> R) (a b : R) (ps : list Particle) :
  Forall (fun p => 0 <= weight p) ps ->
  Forall (fun p => a <= f p <= b) ps ->
  a * sum (map weight ps) <= sum (map (fun p => f p * weight p) ps)
  /\ sum (map (fun p => f p * weight p) ps) <= b * sum (map weight ps).
Proof.
  intros Hw Hf. induction ps as [|p ps IH]; simpl.
  - rewrite !sum_nil. lra.
  - inversion Hw; subst. inversion Hf; subst.
    rewrite !sum_cons. destruct (IH ltac:(assumption) ltac:(assumption)).
    split; nra.
Qed.

Lemma quotient_bounds (a b n t : R) :
  0 < t -> a * t <= n <= b * t -> a <= n / t <= b.
Proof.
  intros Ht [Hlo Hhi].
  assert (Hi : 0 < / t) by (apply Rinv_0_lt_compat; exact Ht).
  assert (E : n / t * t = n) by (field; lra).
  split; nra.
Qed.

(** X16.  With non-negative weights of positive total, each coordinate of
    the pose [set_particles] estimates lies between the smallest and the
    largest value of that coordinate among the particles: if every
    particle has its x in [xa, xb], its y in [ya, yb] and its theta in
    [ta, tb], so has the estimate. *)
Theorem pose_estimate_within_particles (H : Helpers) (stamp : Z)
    (ps : list Particle) (s : Node H) (xa xb ya yb ta tb : R) :
  Forall (fun p => 0 <= weight p) ps ->
  0 < sum (map weight ps) ->
  Forall (fun p => xa <= x p <= xb) ps ->
  Forall (fun p => ya <= y p <= yb) ps ->
  Forall (fun p => ta <= theta p <= tb) ps ->
  exists est,
    robot_pose (fst (set_particles stamp ps s)) = Some est
    /\ xa <= pose_x est <= xb
    /\ ya <= pose_y est <= yb
    /\ ta <= pose_theta est <= tb.
Proof.
  intros Hw Hpos Hx Hy Ht.
  destruct (set_particles_nonzero H stamp ps s ltac:(lra)) as [g E].
  exists (estimate_of ps). rewrite E. split; [reflexivity|].
  unfold estimate_of. cbn [pose_x pose_y pose_theta].
  split; [|split]; apply quotient_bounds; try exact Hpos;
    apply weighted_sum_bounds; assumption.
Qed.

Lemma pose_estimate_within_particles_witness :
  exists est,
    robot_pose
      (fst (set_particles 3%Z [mkParticle 0 1 0 2; mkParticle 4 1 1 6]
              fresh_node))
    = Some est
    /\ 0 <= pose_x est <= 4
    /\ 1 <= pose_y est <= 1
    /\ 0 <= pose_theta est <= 1.
Proof.
  apply (pose_estimate_within_particles still_helpers).
  - repeat constructor; simpl; lra.
  - unfold sum. simpl. lra.
  - repeat constructor; simpl; lra.
  - repeat constructor; simpl; lra.
  - repeat constructor; simpl; lra.
Defined.

(** ** The callbacks *)

Lemma mbind_ok (H : Helpers) (A B : Type) (m : M H A) (k : A -> M H B)
    (s s' : Node H) (b : B) :
  mbind m k s = (s', Ok b) ->
  exists a s1, m s = (s1, Ok a) /\ k a s1 = (s', Ok b).
Proof.
  unfold mbind. destruct (m s) as [s1 [a | e]]; intros E.
  - exists a, s1. auto.
  - discriminate.
Qed.

Lemma repeat_M_length (H : Helpers) (A : Type) (m : M H A) (k : nat)
    (s s' : Node H) (l : list A) :
  repeat_M k m s = (s', Ok l) -> length l = k.
Proof.
  revert s s' l. induction k as [|k IH]; intros s s' l E; simpl in E.
  - unfold ret in E. inversion E. reflexivity.
  - apply mbind_ok in E. destruct E as (a & s1 & _ & E).
    apply mbind_ok in E. destruct E as (l' & s2 & E2 & E).
    unfold ret in E. inversion E; subst. simpl. f_equal. eapply IH. exact E2.
Qed.

Lemma map_M_weights (H : Helpers) (A : Type) (f : A -> M H Particle)
    (w : R) (l : list A) (s s' : Node H) (out : list Particle) :
  (forall a s0 s1 p, f a s0 = (s1, Ok p) -> weight p = w) ->
  map_M f l s = (s', Ok out) ->
  length out = length l /\ Forall (fun p => weight p = w) out.
Proof.
  intros Hf. revert s s' out. induction l as [|a l IH]; intros s s' out E;
    simpl in E.
  - unfold ret in E. inversion E. auto.
  - apply mbind_ok in E. destruct E as (p & s1 & Ep & E).
    apply mbind_ok in E. destruct E as (ps & s2 & E2 & E).
    unfold ret in E. inversion E; subst.
    destruct (IH _ _ _ E2) as [Hl Hw]. simpl. split; [now rewrite Hl|].
    constructor; [eapply Hf; exact Ep | exact Hw].
Qed.

Lemma choices_length (H : Helpers) (A : Type) (population : list A)
    (weights : list R) (k : nat) (s s' : Node H) (l : list A) :
  choices population weights k s = (s', Ok l) -> length l = k.
Proof.
  unfold choices. destruct (negb _); [discriminate|].
  destruct (rev (accumulate weights)) as [|total front]; [discriminate|].
  destruct (Rle_dec total 0); [discriminate|].
  apply repeat_M_length.
Qed.

(** Whenever it returns, [sample_particles] returns [k] particles of
    weight 1. *)
Lemma sample_particles_returns (H : Helpers) (ps : list Particle)
    (xy_sigma xy_noise theta_sigma theta_noise : R) (k : nat)
    (s s' : Node H) (out : list Particle) :
  sample_particles ps xy_sigma xy_noise theta_sigma theta_noise k s
  = (s', Ok out) ->
  length out = k /\ Forall (fun p => weight p = 1) out.
Proof.
  unfold sample_particles. intros E.
  apply mbind_ok in E. destruct E as (chosen & s1 & Ec & E).
  apply choices_length in Ec.
  apply (map_M_weights H Particle _ 1) in E.
  - destruct E as [Hl Hw]. split; [congruence | exact Hw].
  - intros c s0 s2 p Ep.
    apply mbind_ok in Ep. destruct Ep as (nx & t1 & _ & Ep).
    apply mbind_ok in Ep. destruct Ep as (ny & t2 & _ & Ep).
    apply mbind_ok in Ep. destruct Ep as (nt & t3 & _ & Ep).
    unfold ret in Ep. inversion Ep. reflexivity.
Qed.

Lemma map_result_length {A B : Type} (f : A -> result B) (l : list A)
    (bs : list B) :
  map_result f l = Ok bs -> length bs = length l.
Proof.
  revert bs. induction l as [|a l IH]; intros bs E; simpl in E.
  - inversion E. reflexivity.
  - destruct (f a) as [b | e]; [|discriminate]. simpl in E.
    destruct (map_result f l) as [bs' | e]; [|discriminate]. simpl in E.
    inversion E. simpl. f_equal. now apply IH.
Qed.

Lemma predict_and_weigh_returns (H : Helpers) (ps : list Particle)
    (delta_pose : PoseTuple) (s s' : Node H) (ps3 : list Particle) :
  predict_and_weigh ps delta_pose s = (s', Ok ps3) ->
  length ps3 = NUM_PARTICLES.
Proof.
  unfold predict_and_weigh. intros E.
  apply mbind_ok in E. destruct E as (ps1 & s1 & E1 & E).
  apply sample_particles_returns in E1. destruct E1 as [Hl1 _].
  apply mbind_ok in E. destruct E as (ps2 & s2 & E2 & E).
  destruct (apply_motion_shift H ps1 delta_pose (15 / 100) s1)
    as (dx & dy & Em & _ & Hl2 & _).
  rewrite Em in E2. inversion E2; subst ps2.
  apply mbind_ok in E. destruct E as (s0 & s3 & _ & E).
  unfold lift in E. inversion E as [[Es Er]].
  apply map_result_length in Er. congruence.
Qed.

(** The state [commit] leaves when the total weight is not 0. *)
Lemma commit_nonzero (H : Helpers) (msg : Odometry) (ps3 : list Particle)
    (s : Node H) :
  sum (map weight ps3) <> 0 ->
  exists g,
    commit msg ps3 s
    = (set_last_update_real H (odom_now msg)
         (set_update_count H (S (update_count s))
            (set_gen H g
               (set_robot_pose H (Some (estimate_of ps3))
                  (set_particles_field H
                     (Some (map (rescale (sum (map weight ps3))) ps3))
                     (set_last_update H (odom_stamp msg)
                        (set_last_pose H (Some (odom_pose msg)) s)))))),
       Ok tt).
Proof.
  intros Hnz. unfold commit.
  erewrite mbind_step by reflexivity.
  destruct (set_particles_nonzero H (odom_stamp msg) ps3
              (set_last_pose H (Some (odom_pose msg)) s) Hnz) as [g E].
  exists g. erewrite mbind_step by exact E. reflexivity.
Qed.

Lemma set_particles_zero (H : Helpers) (stamp : Z) (ps : list Particle)
    (s : Node H) :
  sum (map weight ps) = 0 ->
  snd (set_particles stamp ps s) = Raise ZeroDivisionError.
Proof.
  intros Hz. unfold set_particles. erewrite mbind_step by reflexivity.
  destruct ps as [|p ps].
  - erewrite mbind_step by reflexivity.
    erewrite mbind_step by reflexivity.
    unfold mbind at 1. unfold lift, np_average. simpl.
    rewrite sum_nil. destruct (Req_dec_T 0 0); [reflexivity | contradiction].
  - unfold mbind at 1. unfold lift at 1.
    rewrite normalize_weights_zero by (discriminate || exact Hz).
    reflexivity.
Qed.

(** With a total weight of 0 [commit] raises [ZeroDivisionError], the new
    [last_pose] being written already. *)
Lemma commit_zero (H : Helpers) (msg : Odometry) (ps3 : list Particle)
    (s : Node H) :
  sum (map weight ps3) = 0 ->
  snd (commit msg ps3 s) = Raise ZeroDivisionError
  /\ last_pose (fst (commit msg ps3 s)) = Some (odom_pose msg)
  /\ last_update_real (fst (commit msg ps3 s)) = last_update_real s.
Proof.
  intros Hz. split; [|split].
  - unfold commit. erewrite mbind_step by reflexivity.
    pose proof (set_particles_zero H (odom_stamp msg) ps3
                  (set_last_pose H (Some (odom_pose msg)) s) Hz) as Hs.
    unfold mbind at 1.
    destruct (set_particles (odom_stamp msg) ps3
                (set_last_pose H (Some (odom_pose msg)) s)) as [s1 [u | e]];
      cbn [snd] in *; congruence.
  - apply commit_sets_last_pose.
  - pose proof (set_particles_zero H (odom_stamp msg) ps3
                  (set_last_pose H (Some (odom_pose msg)) s) Hz) as Hs.
    pose proof (preserves_set_particles H
                  (fun n => last_update_real n = last_update_real s)
                  ltac:(auto) ltac:(auto) ltac:(auto) ltac:(auto) ltac:(auto)
                  (odom_stamp msg) ps3
                  (set_last_pose H (Some (odom_pose msg)) s) eq_refl) as Hp.
    unfold commit. erewrite mbind_step by reflexivity.
    unfold mbind at 1.
    destruct (set_particles (odom_stamp msg) ps3
                (set_last_pose H (Some (odom_pose msg)) s)) as [s1 [u | e]];
      cbn [fst snd] in *; [discriminate | exact Hp].
Qed.

Lemma sum_weights_one (ps : list Particle) (f : Particle -> R) :
  Forall (fun p => weight p = 1) ps ->
  sum (map (fun p => f p * weight p) ps) = sum (map f ps).
Proof.
  induction 1 as [|p ps Hp _ IH]; simpl; [reflexivity|].
  rewrite !sum_cons, IH, Hp. ring.
Qed.

Lemma sum_weights_length (ps : list Particle) :
  Forall (fun p => weight p = 1) ps ->
  sum (map weight ps) = INR (length ps).
Proof.
  intros Hw. rewrite sum_all_one; [now rewrite length_map|].
  apply Forall_map. exact Hw.
Qed.

(** X17.  [update_initial_pose] cannot fail: whatever the node held, it
    installs exactly [NUM_PARTICLES] = 300 particles, each of weight
    1/300, hands their plain average to the frame correction, sets
    [last_update] to the stamp of the message and leaves [last_pose] and
    the latest scan alone. *)
Theorem update_initial_pose_installs (H : Helpers) (stamp : Z)
    (pose : PoseTuple) (s : Node H) :
  exists ps,
    snd (update_initial_pose stamp pose s) = Ok tt
    /\ particles (fst (update_initial_pose stamp pose s)) = Some ps
    /\ length ps = 300%nat
    /\ Forall (fun p => weight p = 1 / 300) ps
    /\ robot_pose (fst (update_initial_pose stamp pose s))
       = Some (mkPoseTuple (sum (map x ps) / 300) (sum (map y ps) / 300)
                           (sum (map theta ps) / 300))
    /\ last_update (fst (update_initial_pose stamp pose s)) = stamp
    /\ last_pose (fst (update_initial_pose stamp pose s)) = last_pose s
    /\ last_lidar (fst (update_initial_pose stamp pose s)) = last_lidar s.
Proof.
  unfold update_initial_pose.
  destruct (sample_particles_positive H
              [mkParticle (pose_x pose) (pose_y pose) (pose_theta pose) 1]
              INITIAL_STATE_XY_SIGMA INITIAL_STATE_XY_NOISE
              INITIAL_STATE_THETA_SIGMA INITIAL_STATE_THETA_NOISE
              NUM_PARTICLES ltac:(unfold sum; simpl; lra) s)
    as (g & out & E & Hlen & Hw).
  erewrite mbind_step by exact E.
  assert (Hsum : sum (map weight out) = 300).
  { rewrite (sum_weights_length out Hw), Hlen. unfold NUM_PARTICLES.
    rewrite INR_IZR_INZ. reflexivity. }
  destruct (set_particles_nonzero H stamp out (set_gen H g s)
              ltac:(rewrite Hsum; lra)) as [g' E'].
  rewrite E'. cbn [fst snd particles robot_pose last_update last_pose
                   last_lidar set_update_count set_gen set_robot_pose
                   set_particles_field set_last_update].
  exists (map (rescale (sum (map weight out))) out).
  split; [reflexivity|]. split; [reflexivity|].
  split; [rewrite length_map; exact Hlen|].
  split.
  { apply Forall_map. rewrite Hsum.
    apply (Forall_impl _ (P := fun p => weight p = 1)); [|exact Hw].
    intros p Hp. unfold rescale. cbn [weight]. rewrite Hp. reflexivity. }
  split.
  { unfold estimate_of. rewrite !map_map. cbn [rescale x y theta].
    rewrite !(sum_weights_one out _ Hw), Hsum. reflexivity. }
  auto.
Qed.

(** X18.  A cycle that is processed leaves the node with exactly
    [NUM_PARTICLES] = 300 particles whose weights sum to 1, whatever the
    size of the set it started from; [last_pose] is the pose of the
    message, [last_update] its stamp, [last_update_real] the clock reading
    taken at the end, and the re-entrancy flag is released. *)
Theorem processed_cycle_invariants (H : Helpers) (msg : Odometry)
    (s : Node H) (d : PoseTuple) :
  snd (update msg s) = Processed d ->
  exists ps',
    particles (fst (update msg s)) = Some ps'
    /\ length ps' = 300%nat
    /\ sum (map weight ps') = 1
    /\ last_pose (fst (update msg s)) = Some (odom_pose msg)
    /\ last_update (fst (update msg s)) = odom_stamp msg
    /\ last_update_real (fst (update msg s)) = odom_now msg
    /\ is_updating (fst (update msg s)) = false.
Proof.
  unfold update.
  destruct (is_updating s || (odom_stamp msg <? last_update_real s)%Z);
    [discriminate|].
  unfold update_body.
  destruct (last_pose (set_is_updating H true s)) as [last|];
    [|discriminate].
  destruct (particles (set_is_updating H true s)) as [ps|]; [|discriminate].
  destruct (below_motion_threshold _); [discriminate|].
  destruct (predict_and_weigh ps _ (set_is_updating H true s))
    as [s1 [ps3 | e]] eqn:Ew; [|discriminate].
  pose proof (predict_and_weigh_returns H _ _ _ _ _ Ew) as Hlen.
  destruct (Req_dec_T (sum (map weight ps3)) 0) as [Hz | Hnz].
  - destruct (commit_zero H msg ps3 s1 Hz) as [Hr _].
    destruct (commit msg ps3 s1) as [s' [u | e]]; cbn [snd] in *;
      discriminate.
  - destruct (commit_nonzero H msg ps3 s1 Hnz) as [g E]. rewrite E.
    intros _. cbn [fst].
    exists (map (rescale (sum (map weight ps3))) ps3).
    split; [reflexivity|]. split; [rewrite length_map; exact Hlen|].
    split; [rewrite sum_weight_rescale; field; exact Hnz|].
    repeat split; reflexivity.
Qed.

Lemma processed_cycle_invariants_witness :
  exists ps',
    particles (fst (update (mkOdometry 1 (mkPoseTuple 1 0 0) 2) settled_node))
    = Some ps'
    /\ length ps' = 300%nat
    /\ sum (map weight ps') = 1
    /\ last_pose (fst (update (mkOdometry 1 (mkPoseTuple 1 0 0) 2)
                         settled_node))
       = Some (mkPoseTuple 1 0 0)
    /\ last_update (fst (update (mkOdometry 1 (mkPoseTuple 1 0 0) 2)
                           settled_node)) = 1%Z
    /\ last_update_real (fst (update (mkOdometry 1 (mkPoseTuple 1 0 0) 2)
                                settled_node)) = 2%Z
    /\ is_updating (fst (update (mkOdometry 1 (mkPoseTuple 1 0 0) 2)
                           settled_node)) = false.
Proof.
  assert (Hsum : 0 < sum (map weight [mkParticle 0 0 0 1]))
    by (unfold sum; simpl; lra).
  destruct (update_processes still_helpers
              (mkOdometry 1 (mkPoseTuple 1 0 0) 2) settled_node
              (mkPoseTuple 0 0 0) [mkParticle 0 0 0 1]
              eq_refl ltac:(cbn; lia) eq_refl eq_refl Hsum eq_refl
              not_below_one_metre) as (Ho & _).
  exact (processed_cycle_invariants still_helpers
           (mkOdometry 1 (mkPoseTuple 1 0 0) 2) settled_node _ Ho).
Defined.

(** X19.  As long as no scan has arrived, an odometry message that is
    neither stale nor below the motion threshold is always processed: on a
    node that is not busy and holds non-negative weights of positive
    total, [update] raises nothing and installs a normalized set. *)
Theorem update_runs_without_scan (H : Helpers) (msg : Odometry) (s : Node H)
    (last : PoseTuple) (ps : list Particle) :
  is_updating s = false ->
  (last_update_real s <= odom_stamp msg)%Z ->
  last_pose s = Some last -> particles s = Some ps ->
  0 < sum (map weight ps) -> last_lidar s = None ->
  below_motion_threshold (delta_of H last (odom_pose msg)) = false ->
  snd (update msg s) = Processed (delta_of H last (odom_pose msg))
  /\ last_lidar (fst (update msg s)) = None
  /\ exists ps', particles (fst (update msg s)) = Some ps'
                 /\ sum (map weight ps') = 1.
Proof.
  intros Hu Hst Hlast Hps Hpos Hl Hb.
  destruct (update_processes H msg s last ps Hu Hst Hlast Hps Hpos Hl Hb)
    as (Ho & _ & _ & Hl' & Hp').
  auto.
Qed.

Lemma update_runs_without_scan_witness :
  snd (update (mkOdometry 1 (mkPoseTuple 1 0 0) 2) settled_node)
  = Processed (delta_of still_helpers (mkPoseTuple 0 0 0) (mkPoseTuple 1 0 0))
  /\ last_lidar (fst (update (mkOdometry 1 (mkPoseTuple 1 0 0) 2)
                        settled_node)) = None
  /\ exists ps',
       particles (fst (update (mkOdometry 1 (mkPoseTuple 1 0 0) 2)
                         settled_node)) = Some ps'
       /\ sum (map weight ps') = 1.
Proof.
  apply (update_runs_without_scan still_helpers
           (mkOdometry 1 (mkPoseTuple 1 0 0) 2) settled_node
           (mkPoseTuple 0 0 0) [mkParticle 0 0 0 1]);
    try reflexivity.
  - cbn. lia.
  - unfold sum. simpl. lra.
  - exact not_below_one_metre.
Defined.

(** Without obstacles in the map, a scan without a return weighs every
    particle 0. *)
Lemma blank_scan_weight (particle : Particle) :
  calculate_sensor_weight [] (Some (repeat 0 361)) particle = Ok 0.
Proof.
  unfold calculate_sensor_weight, expected_lidar_of.
  rewrite removelast_repeat. cbn [map fold_result bind].
  rewrite map_repeat. cbn [nan_to_zero].
  rewrite compare_lidar_sum by (rewrite !repeat_length; reflexivity).
  rewrite (sum_combine_repeat _ 0 0 360) by apply contribution_same.
  reflexivity.
Qed.

(** On an empty map a blank scan makes the cycle raise once [last_pose] is
    written. *)
Lemma blank_scan_aborts (H : Helpers) (msg : Odometry)
    (s : Node H) (last : PoseTuple) (ps : list Particle) :
  is_updating s = false ->
  (last_update_real s <= odom_stamp msg)%Z ->
  last_pose s = Some last -> particles s = Some ps ->
  0 < sum (map weight ps) ->
  map_obstacles s = [] -> last_lidar s = Some (repeat 0 361) ->
  below_motion_threshold (delta_of H last (odom_pose msg)) = false ->
  snd (update msg s) = Aborted ZeroDivisionError
  /\ last_pose (fst (update msg s)) = Some (odom_pose msg)
  /\ last_update_real (fst (update msg s)) = last_update_real s.
Proof.
  intros Hu Hst Hlast Hps Hpos Hmap Hl Hb. unfold update. rewrite Hu.
  cbn [orb].
  destruct (Z.ltb_spec (odom_stamp msg) (last_update_real s)) as [? | _];
    [lia|].
  unfold update_body. cbn [last_pose particles set_is_updating].
  rewrite Hlast, Hps, Hb.
  assert (Ew : exists g ps2,
             predict_and_weigh ps (delta_of H last (odom_pose msg))
               (set_is_updating H true s)
             = (set_gen H g (set_is_updating H true s),
                Ok (map (fun p => mkParticle (x p) (y p) (theta p) 0) ps2))).
  { unfold predict_and_weigh.
    destruct (sample_particles_positive H ps INITIAL_STATE_XY_SIGMA
                INITIAL_STATE_XY_NOISE INITIAL_STATE_THETA_SIGMA
                INITIAL_STATE_THETA_NOISE NUM_PARTICLES Hpos
                (set_is_updating H true s))
      as (g1 & ps1 & E1 & _).
    erewrite mbind_step by exact E1.
    destruct (apply_motion_weights H ps1
                (delta_of H last (odom_pose msg)) (15 / 100)
                (set_gen H g1 (set_is_updating H true s)))
      as (g2 & ps2 & E2 & _).
    erewrite mbind_step by exact E2.
    erewrite mbind_step by reflexivity.
    cbn [last_lidar map_obstacles set_gen set_is_updating].
    rewrite Hl, Hmap.
    rewrite (map_result_total _
               (fun p => mkParticle (x p) (y p) (theta p) 0))
      by (intros p _; rewrite blank_scan_weight; reflexivity).
    exists g2, ps2. reflexivity. }
  destruct Ew as (g & ps2 & Ew). rewrite Ew.
  assert (Hz : sum (map weight
                      (map (fun p => mkParticle (x p) (y p) (theta p) 0) ps2))
               = 0).
  { apply sum_all_zero. rewrite map_map. apply Forall_map.
    apply Forall_forall. reflexivity. }
  destruct (commit_zero H msg _
              (set_gen H g (set_is_updating H true s)) Hz)
    as (Hr & Hlp & Hlr).
  destruct (commit msg _ (set_gen H g (set_is_updating H true s)))
    as [s' [u | e]]; cbn [fst snd] in *; [discriminate|].
  inversion Hr; subst e. auto.
Qed.

(** X20.  On a map without obstacles, when the latest scan has no return
    in any direction (361 readings of 0), every particle gets weight 0
    and a cycle that passes the motion threshold ends in
    [ZeroDivisionError]: [last_pose] has been overwritten by then, while
    [last_update_real] is left as it was. *)
Theorem update_aborts_on_blank_scan (H : Helpers) (msg : Odometry)
    (s : Node H) (last : PoseTuple) (ps : list Particle) :
  is_updating s = false ->
  (last_update_real s <= odom_stamp msg)%Z ->
  last_pose s = Some last -> particles s = Some ps ->
  0 < sum (map weight ps) ->
  map_obstacles s = [] -> last_lidar s = Some (repeat 0 361) ->
  below_motion_threshold (delta_of H last (odom_pose msg)) = false ->
  snd (update msg s) = Aborted ZeroDivisionError
  /\ last_pose (fst (update msg s)) = Some (odom_pose msg)
  /\ last_update_real (fst (update msg s)) = last_update_real s.
Proof. exact (blank_scan_aborts H msg s last ps). Qed.

Lemma update_aborts_on_blank_scan_witness :
  snd (update (mkOdometry 1 (mkPoseTuple 1 0 0) 2) blank_node)
  = Aborted ZeroDivisionError
  /\ last_pose (fst (update (mkOdometry 1 (mkPoseTuple 1 0 0) 2) blank_node))
     = Some (mkPoseTuple 1 0 0)
  /\ last_update_real
       (fst (update (mkOdometry 1 (mkPoseTuple 1 0 0) 2) blank_node))
     = 0%Z.
Proof.
  apply (update_aborts_on_blank_scan still_helpers
           (mkOdometry 1 (mkPoseTuple 1 0 0) 2) blank_node
           (mkPoseTuple 0 0 0) [mkParticle 0 0 0 1]);
    try reflexivity.
  - cbn. lia.
  - unfold sum. simpl. lra.
  - exact not_below_one_metre.
Defined.

(** X21.  On a node that is not busy and holds particles and a last pose,
    a message that is not stale is skipped exactly when the planar length
    of the delta is below 0.01 and its angle, taken with its sign, is
    below 0.05; a skipped message leaves the whole node, generator
    included, as it was. *)
Theorem update_skips_exactly (H : Helpers) (msg : Odometry) (s : Node H)
    (last : PoseTuple) (ps : list Particle) :
  is_updating s = false ->
  (last_update_real s <= odom_stamp msg)%Z ->
  last_pose s = Some last -> particles s = Some ps ->
  (snd (update msg s) = Skipped
   <-> sqrt ((pose_x last - pose_x (odom_pose msg)) ^ 2
             + (pose_y last - pose_y (odom_pose msg)) ^ 2) < 1 / 100
       /\ angle_diff H (pose_theta last) (pose_theta (odom_pose msg)) < 5 / 100)
  /\ (snd (update msg s) = Skipped -> fst (update msg s) = s).
Proof.
  intros Hu Hst Hlast Hps.
  pose proof (update_cases H msg s) as Hc.
  split; [split|].
  - intros Ho. rewrite Ho in Hc. destruct Hc as (_ & last' & Hl' & Hb).
    rewrite Hlast in Hl'. inversion Hl'; subst last'.
    apply below_motion_threshold_true in Hb. exact Hb.
  - intros Hb.
    rewrite (update_skips H msg s last ps Hu Hst Hlast Hps); [reflexivity|].
    apply below_motion_threshold_true. exact Hb.
  - intros Ho. rewrite Ho in Hc. apply Hc.
Qed.

Lemma update_skips_exactly_witness :
  (snd (update (mkOdometry 3 (mkPoseTuple (1 / 1000) 0 0) 4) settled_node)
   = Skipped
   <-> sqrt ((0 - 1 / 1000) ^ 2 + (0 - 0) ^ 2) < 1 / 100
       /\ 0 - 0 < 5 / 100)
  /\ (snd (update (mkOdometry 3 (mkPoseTuple (1 / 1000) 0 0) 4) settled_node)
      = Skipped ->
      fst (update (mkOdometry 3 (mkPoseTuple (1 / 1000) 0 0) 4) settled_node)
      = settled_node).
Proof.
  apply (update_skips_exactly still_helpers
           (mkOdometry 3 (mkPoseTuple (1 / 1000) 0 0) 4) settled_node
           (mkPoseTuple 0 0 0) [mkParticle 0 0 0 1]);
    try reflexivity.
  cbn. lia.
Defined.

(** X22.  One obstacle beyond the cutoff blanks its bucket: if any
    obstacle filed in a bucket is farther than 3.0 from the particle, the
    expected range of that bucket is 0, however close the other obstacles
    of the bucket are. *)
Theorem far_obstacle_blanks_bucket (obs : list (R * R)) (particle : Particle)
    (ob : R * R) :
  In ob obs -> 3 < snd (obstacle_polar particle ob) ->
  exists e,
    expected_lidar_of obs particle = Ok e
    /\ nth (bucket_of particle ob) e 0 = 0.
Proof.
  intros Hin Hfar.
  destruct (expected_lidar_in_range obs particle) as (e & E & _ & Hb).
  destruct (expected_lidar_buckets obs particle) as (e' & E' & _ & Hb').
  rewrite E in E'. inversion E'; subst e'.
  exists e. split; [exact E|].
  destruct (Hb' (bucket_of particle ob)) as (_ & Hle & _).
  specialize (Hle ob Hin eq_refl). rewrite clamp_range_out in Hle by exact Hfar.
  specialize (Hb (bucket_of particle ob)). lra.
Qed.

Lemma far_obstacle_blanks_bucket_witness :
  exists e,
    expected_lidar_of [(2, 0); (4, 0)] (mkParticle 0 0 0 1) = Ok e
    /\ nth (bucket_of (mkParticle 0 0 0 1) (4, 0)) e 0 = 0.
Proof.
  apply (far_obstacle_blanks_bucket [(2, 0); (4, 0)] (mkParticle 0 0 0 1)
           (4, 0)).
  - simpl. auto.
  - rewrite obstacle_polar_ahead by lra. simpl. lra.
Defined.

(** However [update] ends, the map and the latest scan are what they
    were. *)
Lemma update_keeps_map_and_scan (H : Helpers) (msg : Odometry) (s : Node H) :
  map_obstacles (fst (update msg s)) = map_obstacles s
  /\ last_lidar (fst (update msg s)) = last_lidar s.
Proof.
  set (I := fun n : Node H =>
              map_obstacles n = map_obstacles s
              /\ last_lidar n = last_lidar s).
  assert (Hgen : forall g n, I n -> I (set_gen H g n)) by (intros g n Hn; exact Hn).
  change (I (fst (update msg s))). unfold update.
  destruct (is_updating s || (odom_stamp msg <? last_update_real s)%Z);
    [split; reflexivity|].
  unfold update_body.
  destruct (last_pose (set_is_updating H true s)) as [last|];
    [|split; reflexivity].
  destruct (particles (set_is_updating H true s)) as [ps|];
    [|split; reflexivity].
  destruct (below_motion_threshold _); [split; reflexivity|].
  pose proof (preserves_predict_and_weigh H I ps
                (delta_of H last (odom_pose msg)) Hgen
                (set_is_updating H true s) ltac:(split; reflexivity))
    as Hw.
  destruct (predict_and_weigh ps _ (set_is_updating H true s))
    as [s1 [ps3 | e]]; cbn [fst] in Hw; [|exact Hw].
  assert (Hc : preserves I (commit msg ps3)).
  { unfold commit.
    apply preserves_bind;
      [apply preserves_modify; intros n Hn; exact Hn|]. intros _.
    apply preserves_bind.
    - apply preserves_set_particles; intros; assumption.
    - intros _. apply preserves_modify. intros n Hn; exact Hn. }
  specialize (Hc s1 Hw).
  destruct (commit msg ps3 s1) as [s' [u | e]]; exact Hc.
Qed.

(** X23.  [update] never touches the map or the latest scan: whatever way
    it ends, exception included, [map_obstacles] and [last_lidar] are what
    they were; the same holds of [update_initial_pose]. *)
Theorem callbacks_keep_map_and_scan (H : Helpers) (s : Node H) :
  (forall msg,
     map_obstacles (fst (update msg s)) = map_obstacles s
     /\ last_lidar (fst (update msg s)) = last_lidar s)
  /\ (forall stamp pose,
        map_obstacles (fst (update_initial_pose stamp pose s))
        = map_obstacles s
        /\ last_lidar (fst (update_initial_pose stamp pose s))
           = last_lidar s).
Proof.
  split.
  - intros msg. apply update_keeps_map_and_scan.
  - intros stamp pose.
    apply (preserves_update_initial_pose H
             (fun n : Node H =>
                map_obstacles n = map_obstacles s
                /\ last_lidar n = last_lidar s));
      try (intros; assumption).
    split; reflexivity.
Qed.

(** ** A cycle that raises after line 208 *)

Lemma not_below_second_metre :
  below_motion_threshold
    (delta_of still_helpers (mkPoseTuple 1 0 0) (mkPoseTuple 2 0 0)) = false.
Proof.
  destruct (below_motion_threshold _) eqn:E; [|reflexivity].
  apply below_motion_threshold_true in E. destruct E as [E _].
  cbn in E. replace (0 - 0) with 0 in E by ring.
  replace (0 * (0 * 1)) with (0 ^ 2) in E by ring.
  replace ((1 - 2) * ((1 - 2) * 1)) with ((1 - 2) ^ 2) in E by ring.
  rewrite sqrt_along_x, Rabs_left in E; lra.
Qed.

